(** * Tiled Mandelbrot renderer: a shallow embedding of
      [termux_friendly_mandelbrot.py] and the properties of its kernel.

    The Python program works on IEEE-754 binary64 numbers (Python [float],
    [numpy.float64]) and on Python integers.  Binary64 is Rocq's primitive
    [float], so every arithmetic step below is the very operation the
    interpreter performs, and the model runs under [vm_compute].  Python
    integers are [Z]; [//] is [Z.div] (both round towards minus infinity).

    Arrays are lists of rows.  The counts a render stores are Python
    integers written into an [int32] array; they are kept as [Z] here.  The
    model of a store is exact while the stored value fits the cell, which
    [escape_in_cell_range] shows to be the case whenever [max_iter - 1]
    does; outside that range numpy refuses the store with [OverflowError],
    which the model does not have, so a statement that a render returns
    carries the range as a hypothesis.  Sizes are taken to fit the machine:
    running out of memory and integers too large for a float are not
    modelled.  Printing, the progress bar and
    the clock do not influence the computed buffer and are left out. *)

From Stdlib Require Import ZArith List Lia Bool FinFun Permutation.
From Stdlib Require Import Floats.
From Stdlib Require Ascii String.
Import String.StringSyntax.
Import ListNotations.

#[local] Open Scope Z_scope.
#[local] Set Warnings "-inexact-float".

(** ** Arrays as lists of rows *)

Definition grid (A : Type) : Type := list (list A).

(** [cell g i j] is [g[i, j]] for indices inside the array. *)
Definition cell {A : Type} (g : grid A) (i j : nat) : option A :=
  match nth_error g i with
  | Some row => nth_error row j
  | None => None
  end.

Fixpoint imap_from {A B : Type} (f : nat -> A -> B) (i : nat) (l : list A) : list B :=
  match l with
  | [] => []
  | a :: l' => f i a :: imap_from f (S i) l'
  end.

(** [imap f l] maps [f] over [l] together with the position of each element. *)
Definition imap {A B : Type} (f : nat -> A -> B) (l : list A) : list B :=
  imap_from f 0 l.

(** Python's [range(n)]: empty when [n <= 0]. *)
Definition py_range (n : Z) : list Z :=
  map Z.of_nat (seq 0 (Z.to_nat n)).

(** [numpy.arange(a, b)] on integers: empty when [b <= a]. *)
Definition np_arange (a b : Z) : list Z :=
  map (fun i => a + Z.of_nat i) (seq 0 (Z.to_nat (b - a))).

(** Conversion of an integer to binary64, rounding to nearest even: what
    [float / int] does to its integer operand and what numpy does to an
    [int64] index multiplied by a float. *)
Definition float_of_Z (z : Z) : float :=
  SF2Prim (binary_normalize prec emax z 0 false).

(** ** The escape-time kernel: [mandelbrot_tile] *)

Definition threshold : float := 4%float.

(** The body of [for k in range(max_iter)] with its [else] branch.  [n] is
    the number of values of [k] still to come, [k] the current one. *)
Fixpoint escape_loop (n : nat) (k : Z) (zr zi cr ci : float) (max_iter : Z) : Z :=
  match n with
  | O => max_iter - 1
  | S n' =>
      let zr2 := (zr * zr)%float in
      let zi2 := (zi * zi)%float in
      if (threshold <? zr2 + zi2)%float then k
      else
        let zi' := (2 * zr * zi + ci)%float in
        let zr' := (zr2 - zi2 + cr)%float in
        escape_loop n' (k + 1) zr' zi' cr ci max_iter
  end.

(** The value stored in [divtime[i, j]] for the point [cr + ci*i]. *)
Definition escape (cr ci : float) (max_iter : Z) : Z :=
  escape_loop (Z.to_nat max_iter) 0 0%float 0%float cr ci max_iter.

(** [mandelbrot_tile c_real c_imag max_iter].  The shape is that of
    [c_real]; [c_imag] is read at the same indices (the two grids have equal
    shapes by contract, numpy raises [IndexError] otherwise; a missing cell
    reads as 0 here). *)
Definition mandelbrot_tile (c_real c_imag : grid float) (max_iter : Z) : grid Z :=
  imap (fun i row =>
          imap (fun j cr =>
                  let ci := match cell c_imag i j with
                            | Some v => v
                            | None => 0%float
                            end in
                  escape cr ci max_iter) row) c_real.

(** ** The recurrence as the specification words it *)

(** One update of the orbit: [z <- z^2 + c] on real and imaginary parts. *)
Definition orbit_step (cr ci : float) (z : float * float) : float * float :=
  let '(zr, zi) := z in
  ((zr * zr - zi * zi + cr)%float, (2 * zr * zi + ci)%float).

(** The orbit of 0: [orbit cr ci k] is the state at the start of iteration [k]. *)
Fixpoint orbit (cr ci : float) (k : nat) : float * float :=
  match k with
  | O => (0%float, 0%float)
  | S k' => orbit_step cr ci (orbit cr ci k')
  end.

(** The escape condition [zr2 + zi2 > 4.0]. *)
Definition escaped (z : float * float) : bool :=
  let '(zr, zi) := z in (threshold <? zr * zr + zi * zi)%float.

(** The count the specification prescribes: the first [k < max_iter] at
    which the escape condition holds, or [max_iter - 1] when none does. *)
Inductive spec_count (cr ci : float) (max_iter : Z) : Z -> Prop :=
| spec_escapes (k : nat) :
    Z.of_nat k < max_iter ->
    escaped (orbit cr ci k) = true ->
    (forall j : nat, (j < k)%nat -> escaped (orbit cr ci j) = false) ->
    spec_count cr ci max_iter (Z.of_nat k)
| spec_bounded :
    (forall k : nat, Z.of_nat k < max_iter -> escaped (orbit cr ci k) = false) ->
    spec_count cr ci max_iter (max_iter - 1).

(** ** The render: [render_mandelbrot_tiled] *)

(** The keyword arguments of [render_mandelbrot_tiled]. *)
Record config : Type := mkConfig {
  width : Z;
  height : Z;
  max_iter : Z;
  x_min : float;
  x_max : float;
  y_min : float;
  y_max : float;
  tile_size : Z
}.

Inductive py_error : Type :=
| ZeroDivisionError
| ValueError.

(** What a call yields: a value, or an exception that propagates to the
    caller.  [allocated] tells whether the output array of the render had
    been created when the exception was raised. *)
Inductive outcome (A : Type) : Type :=
| Ok (a : A)
| Raise (e : py_error) (allocated : bool).

Arguments Ok {A} a.
Arguments Raise {A} e allocated.

Definition bind {A B : Type} (m : outcome A) (f : A -> outcome B) : outcome B :=
  match m with
  | Ok a => f a
  | Raise e b => Raise e b
  end.

(** [x_scale = (x_max - x_min) / width], [y_scale = (y_max - y_min) / height]:
    the integer is converted to a float and the division is the binary64 one. *)
Definition x_scale (c : config) : float :=
  ((x_max c - x_min c) / float_of_Z (width c))%float.

Definition y_scale (c : config) : float :=
  ((y_max c - y_min c) / float_of_Z (height c))%float.

(** [np.zeros((h, w), dtype=np.int32)] for non-negative [h] and [w]. *)
Definition np_zeros (h w : Z) : grid Z :=
  repeat (repeat 0 (Z.to_nat w)) (Z.to_nat h).

(** [np.meshgrid(xs, ys)] with the default ['xy'] indexing: both results
    have [len(ys)] rows and [len(xs)] columns. *)
Definition np_meshgrid (xs ys : list float) : grid float * grid float :=
  (map (fun _ => xs) ys, map (fun y => map (fun _ => y) xs) ys).

(** The coordinate mapper: the grids [X_tile] and [Y_tile] of the tile that
    spans columns [x_start, x_end) and rows [y_start, y_end). *)
Definition tile_coords (c : config) (x_start x_end y_start y_end : Z)
  : grid float * grid float :=
  let x_indices := np_arange x_start x_end in
  let y_indices := np_arange y_start y_end in
  np_meshgrid
    (map (fun x => (x_min c + float_of_Z x * x_scale c)%float) x_indices)
    (map (fun y => (y_min c + float_of_Z y * y_scale c)%float) y_indices).

(** A tile's pixel rectangle: columns [x_start, x_end), rows [y_start, y_end). *)
Record rect : Type := mkRect {
  x_start : Z;
  x_end : Z;
  y_start : Z;
  y_end : Z
}.

(** The rectangle of tile [(tx, ty)] as the loop body computes it. *)
Definition tile_rect (w h ts : Z) (tx ty : Z) : rect :=
  let xs := tx * ts in
  let ys := ty * ts in
  mkRect xs (Z.min (xs + ts) w) ys (Z.min (ys + ts) h).

Definition in_rect (r : rect) (x y : Z) : bool :=
  (x_start r <=? x) && (x <? x_end r) && (y_start r <=? y) && (y <? y_end r).

(** The number of tiles along an axis of [n] pixels: ceiling division. *)
Definition tile_count (n ts : Z) : Z := (n + ts - 1) / ts.

(** The tiles in the order the two nested loops visit them. *)
Definition tile_rects (w h ts : Z) : list rect :=
  flat_map (fun ty => map (fun tx => tile_rect w h ts tx ty)
                          (py_range (tile_count w ts)))
           (py_range (tile_count h ts)).

(** [result[y_start:y_end, x_start:x_end] = tile]: every cell of [result]
    inside the rectangle takes the tile's value at the local index, the
    others are untouched.  (The slices are within the array and the tile has
    the slice's shape on every call the render makes; a cell the tile lacks
    keeps its value here.) *)
Definition assign_block (result : grid Z) (r : rect) (tile : grid Z) : grid Z :=
  imap (fun i row =>
          imap (fun j v =>
                  if in_rect r (Z.of_nat j) (Z.of_nat i) then
                    match cell tile (Z.to_nat (Z.of_nat i - y_start r))
                                    (Z.to_nat (Z.of_nat j - x_start r)) with
                    | Some t => t
                    | None => v
                    end
                  else v) row) result.

(** What the loop body does with the rectangle of its tile: map the pixel
    indices to coordinates, evaluate them, store the counts. *)
Definition place_tile (c : config) (result : grid Z) (r : rect) : grid Z :=
  let '(X_tile, Y_tile) := tile_coords c (x_start r) (x_end r) (y_start r) (y_end r) in
  let tile_result := mandelbrot_tile X_tile Y_tile (max_iter c) in
  assign_block result r tile_result.

(** One pass of the inner loop body, for the tile [(tx, ty)]. *)
Definition process_tile (c : config) (result : grid Z) (tx ty : Z) : grid Z :=
  place_tile c result (tile_rect (width c) (height c) (tile_size c) tx ty).

(** The Divergence Buffer [result] as it stands when the tile loops end.
    The statements that can raise are, in program order: the two scale
    divisions, the allocation, and the tile-grid divisions. *)
Definition render_buffer (c : config) : outcome (grid Z) :=
  if width c =? 0 then Raise ZeroDivisionError false
  else if height c =? 0 then Raise ZeroDivisionError false
  else if (height c <? 0) || (width c <? 0) then Raise ValueError false
  else
    let result := np_zeros (height c) (width c) in
    if tile_size c =? 0 then Raise ZeroDivisionError true
    else
      let tiles_x := tile_count (width c) (tile_size c) in
      let tiles_y := tile_count (height c) (tile_size c) in
      Ok (fold_left
            (fun result ty =>
               fold_left (fun result tx => process_tile c result tx ty)
                         (py_range tiles_x) result)
            (py_range tiles_y) result).

(** ** Post-processing: lines 105 to 107 *)

(** [np.max] keeps a NaN once it meets one. *)
Definition fmax (a x : float) : float :=
  if is_nan a then a
  else if is_nan x then x
  else if (a <? x)%float then x else a.

(** [np.max] of a two-dimensional array; an empty array raises. *)
Definition np_max (g : grid float) : outcome float :=
  match concat g with
  | [] => Raise ValueError true
  | v :: vs => Ok (fold_left fmax vs v)
  end.

(** [(a / np.max(a)) * 255]: no test on the divisor. *)
Definition normalize (a : grid float) : outcome (grid float) :=
  bind (np_max a) (fun m => Ok (map (map (fun v => (v / m * 255)%float)) a)).

(** The integer value of a finite float, rounded towards zero. *)
Definition trunc_float (x : float) : option Z :=
  match Prim2SF x with
  | S754_zero _ => Some 0
  | S754_finite s m e =>
      let v := match e with
               | Z.neg p => Z.pos m / 2 ^ Z.pos p
               | _ => Z.pos m * 2 ^ e
               end in
      Some (if s then - v else v)
  | _ => None
  end.

(** [np.uint8(x)]: truncation for a value in range.  The cast of a NaN, an
    infinity or a value outside [0, 255] is left to the platform by C and by
    numpy; it is [None] here. *)
Definition np_uint8 (x : float) : option Z :=
  match trunc_float x with
  | Some v => if (0 <=? v) && (v <=? 255) then Some v else None
  | None => None
  end.

Section PostProcessor.

(** [numpy.log] on binary64.  It is a library function of which the
    program's text fixes nothing, so the model takes it as a parameter. *)
Variable np_log : float -> float.

(** [np.log(result + 1)]; the sum is the [int32] one, exact for every
    count below [2^31 - 1]. *)
Definition log_scale (result : grid Z) : grid float :=
  map (map (fun count => np_log (float_of_Z (count + 1)))) result.

(** The 8-bit image handed to [Image.fromarray]. *)
Definition post_process (result : grid Z) : outcome (grid (option Z)) :=
  bind (normalize (log_scale result))
       (fun a => Ok (map (map np_uint8) a)).

(** The pixels of the image [render_mandelbrot_tiled] returns (the render
    time it returns beside them is left out). *)
Definition render_mandelbrot_tiled (c : config) : outcome (grid (option Z)) :=
  bind (render_buffer c) post_process.

End PostProcessor.

(** ** Reference points for the statements *)

(** The complex coordinate of the pixel in column [x] and row [y]. *)
Definition pixel_re (c : config) (x : Z) : float :=
  (x_min c + float_of_Z x * x_scale c)%float.

Definition pixel_im (c : config) (y : Z) : float :=
  (y_min c + float_of_Z y * y_scale c)%float.

(** The count of one pixel, taken on its own. *)
Definition pixel_count (c : config) (x y : Z) : Z :=
  escape (pixel_re c x) (pixel_im c y) (max_iter c).

(** The buffer computed pixel by pixel, with no tiling at all. *)
Definition pixel_grid (c : config) : grid Z :=
  map (fun y => map (fun x => pixel_count c x y) (py_range (width c)))
      (py_range (height c)).

(** Tile [t] of an axis of [n] pixels spans the indices
    [t * ts, min(t * ts + ts, n)). *)
Definition in_span (n ts t x : Z) : bool :=
  (t * ts <=? x) && (x <? Z.min (t * ts + ts) n).

(** The pixels of the raster. *)
Definition in_raster (w h x y : Z) : bool :=
  (0 <=? x) && (x <? w) && ((0 <=? y) && (y <? h)).

(** The cells some rectangle of [l] contains ([i] is the row, [j] the column). *)
Definition covered (l : list rect) (i j : nat) : bool :=
  existsb (fun r => in_rect r (Z.of_nat j) (Z.of_nat i)) l.

(** [g] with the cells selected by [S] replaced by their pixel's count. *)
Definition paint (c : config) (S : nat -> nat -> bool) (g : grid Z) : grid Z :=
  imap (fun i row =>
          imap (fun j v =>
                  if S i j then pixel_count c (Z.of_nat j) (Z.of_nat i) else v)
               row) g.

(** The same configuration with another tile size. *)
Definition with_tile_size (c : config) (ts : Z) : config :=
  mkConfig (width c) (height c) (max_iter c)
           (x_min c) (x_max c) (y_min c) (y_max c) ts.

(** A buffer whose cells all hold [v]. *)
Definition uniform {A : Type} (h w : nat) (v : A) : grid A :=
  repeat (repeat v w) h.

(** Every cell of [g] satisfies [P]. *)
Definition all_cells {A : Type} (P : A -> Prop) (g : grid A) : Prop :=
  forall (i j : nat) (v : A), cell g i j = Some v -> P v.

(** The signed 32-bit range of the buffer's element type. *)
Definition fits_int32 (v : Z) : Prop := - 2 ^ 31 <= v < 2 ^ 31.

(** ** Sample inputs *)

(** The quick test of the script, shrunk to a 6 by 5 raster. *)
Definition quick_config (ts : Z) : config :=
  mkConfig 6 5 32 (-2)%float 0.5%float (-1.25)%float 1.25%float ts.

(** A 2 by 2 raster on the viewport [-0.6, -0.4] x [-0.1, 0.1], which lies
    inside the main cardioid. *)
Definition cardioid_config (iterations : Z) : config :=
  mkConfig 2 2 iterations (-0.6)%float (-0.4)%float (-0.1)%float 0.1%float 1.

(** A 2 by 2 raster whose viewport bounds are inverted on both axes. *)
Definition inverted_config (iterations ts : Z) : config :=
  mkConfig 2 2 iterations 1%float (-1)%float 1%float (-1)%float ts.

(** [numpy.log] at the two arguments the sample renders reach:
    [log(1.0) = 0.0] and [log(2.0) = 0.6931471805599453]. *)
Definition np_log_sample (x : float) : float :=
  if (x =? 1)%float then 0%float
  else if (x =? 2)%float then 0.6931471805599453%float
  else nan.

(** ** Points of the set *)







(** ** The rest of the render: progress, statistics, preview *)



(** Python's [a / b] on floats: a zero divisor raises. *)
Definition py_truediv (a b : float) : outcome float :=
  if (b =? 0)%float then Raise ZeroDivisionError true else Ok (a / b)%float.

(** [megapixels = (width * height) / 1e6]. *)
Definition megapixels (c : config) : outcome float :=
  py_truediv (float_of_Z (width c * height c)) 1e6%float.

(** [pixels_per_sec = megapixels / render_time if render_time > 0 else 0]
    (the integer 0 of the [else] branch is given as the float 0). *)
Definition pixels_per_sec (mp render_time : float) : outcome float :=
  if (0 <? render_time)%float then py_truediv mp render_time else Ok 0%float.

(** The palette of the ASCII preview of [quick_test_tiled]. *)
#[local] Open Scope string_scope.
Definition chars : String.string := " .:-=+*#%@".
#[local] Close Scope string_scope.

(** Python's [s[i]] on a string: a negative index counts from the end, an
    index outside the string raises [IndexError] ([None] here). *)
Definition py_str_index (s : String.string) (i : Z) : option Ascii.ascii :=
  let n := Z.of_nat (String.length s) in
  let i' := if i <? 0 then i + n else i in
  if (0 <=? i') && (i' <? n) then String.get (Z.to_nat i') s else None.

(** ["".join(chars[pixel // 26] for pixel in row)]. *)
Fixpoint preview_line (row : list Z) : option String.string :=
  match row with
  | [] => Some String.EmptyString
  | pixel :: rest =>
      match py_str_index chars (pixel / 26), preview_line rest with
      | Some ch, Some line => Some (String.String ch line)
      | _, _ => None
      end
  end.

(** The coordinate read for [c_imag[i, j]] by [mandelbrot_tile]. *)
Definition imag_at (c_imag : grid float) (i j : nat) : float :=
  match cell c_imag i j with
  | Some v => v
  | None => 0%float
  end.

(** [b] is [a] with its sign flipped, the sign of a zero not counting. *)
Definition mirrored (a b : float) : Prop :=
  b = (- a)%float \/
  (exists s s' : bool, Prim2SF a = S754_zero s /\ Prim2SF b = S754_zero s').

(** ** Auxiliary notions for the rounding of binary64 operations

    They serve the proof that the normalisation [v / max * 255] followed by
    the cast to 8 bits keeps the order of its inputs. *)

(** The position of the fraction [a/b] inside [[m, m+1)], as the rounding
    functions of [SpecFloat] record it. *)
Definition loc_ok (m : Z) (l : location) (a b : Z) : Prop :=
  0 < b /\ 0 <= m /\ m * b <= a < (m + 1) * b /\
  match l with
  | loc_Exact => a = m * b
  | loc_Inexact Lt => a <> m * b /\ 2 * (a - m * b) < b
  | loc_Inexact Eq => 2 * (a - m * b) = b
  | loc_Inexact Gt => 2 * (a - m * b) > b
  end.

Definition rec_ok (mrs : shr_record) (a b : Z) : Prop :=
  loc_ok (shr_m mrs) (loc_of_shr_record mrs) a b.

(** [N] is an integer nearest to [a/B], the even one when [a/B] lies
    half-way between two integers. *)
Definition near (N a B : Z) : Prop :=
  - B <= 2 * (N * B - a) <= B /\
  (2 * (N * B - a) = B \/ 2 * (N * B - a) = - B -> Z.even N = true).

(** The exponent of the smallest positive binary64 number. *)
Definition emin : Z := 3 - emax - prec.

(** The value of a non-negative finite float in units of [2^emin]. *)
Definition key (x : spec_float) : Z :=
  match x with
  | S754_zero _ => 0
  | S754_finite _ m e => Z.pos m * 2 ^ (e - emin)
  | _ => 0
  end.

(** Zero or a positive finite number. *)
Definition fin_nonneg (x : spec_float) : Prop :=
  match x with
  | S754_zero _ => True
  | S754_finite false _ _ => True
  | _ => False
  end.

(** The constants [255.0] and [1.0]. *)
Definition m255 : positive := 8972014882652160.

Definition SF255 : spec_float := S754_finite false m255 (-45).

Definition SFone : spec_float := S754_finite false 4503599627370496 (-52).

(** ** Basic facts on indexed maps and ranges *)

Lemma nth_error_imap_from {A B : Type} (f : nat -> A -> B) (l : list A) (i n : nat) :
  nth_error (imap_from f i l) n = option_map (f (i + n)%nat) (nth_error l n).
Proof.
  revert i n; induction l as [|a l IH]; intros i [|n]; simpl; try reflexivity.
  - now rewrite Nat.add_0_r.
  - rewrite IH. now replace (S i + n)%nat with (i + S n)%nat by lia.
Qed.

Lemma nth_error_imap {A B : Type} (f : nat -> A -> B) (l : list A) (n : nat) :
  nth_error (imap f l) n = option_map (f n) (nth_error l n).
Proof. unfold imap. now rewrite nth_error_imap_from. Qed.

Lemma cell_imap2 {A B : Type} (f : nat -> nat -> A -> B) (g : grid A) (i j : nat) :
  cell (imap (fun i row => imap (f i) row) g) i j = option_map (f i j) (cell g i j).
Proof.
  unfold cell. rewrite nth_error_imap.
  destruct (nth_error g i) as [row|]; simpl; [|reflexivity].
  apply nth_error_imap.
Qed.

(** ** The loop against the recurrence *)

(** The loop started at iteration [j] in the state [orbit cr ci j], with
    [n] iterations left, returns the first escaping index in [j, j + n) or
    falls through to the [else] branch. *)
Lemma escape_loop_from (cr ci : float) (max_iter : Z) (n j : nat) :
  (exists k : nat,
      (j <= k < j + n)%nat /\
      escaped (orbit cr ci k) = true /\
      (forall i : nat, (j <= i < k)%nat -> escaped (orbit cr ci i) = false) /\
      escape_loop n (Z.of_nat j) (fst (orbit cr ci j)) (snd (orbit cr ci j))
                  cr ci max_iter = Z.of_nat k)
  \/
  ((forall i : nat, (j <= i < j + n)%nat -> escaped (orbit cr ci i) = false) /\
   escape_loop n (Z.of_nat j) (fst (orbit cr ci j)) (snd (orbit cr ci j))
               cr ci max_iter = max_iter - 1).
Proof.
  revert j; induction n as [|n IH]; intros j.
  - right; split; [intros i Hi; lia | reflexivity].
  - cbn [escape_loop].
    destruct (orbit cr ci j) as [zr zi] eqn:Ho; cbn [fst snd].
    destruct (threshold <? zr * zr + zi * zi)%float eqn:Ht.
    + left; exists j. split; [lia|]. split; [|split; [intros i Hi; lia | reflexivity]].
      unfold escaped; rewrite Ho; exact Ht.
    + assert (Hj : escaped (orbit cr ci j) = false)
        by (unfold escaped; rewrite Ho; exact Ht).
      specialize (IH (S j)).
      assert (Hs : orbit cr ci (S j) =
                   ((zr * zr - zi * zi + cr)%float, (2 * zr * zi + ci)%float))
        by (cbn [orbit]; rewrite Ho; reflexivity).
      rewrite Hs in IH; cbn [fst snd] in IH.
      replace (Z.of_nat (S j)) with (Z.of_nat j + 1) in IH by lia.
      destruct IH as [(k & Hk & He & Hb & Hr) | (Hb & Hr)].
      * left; exists k. split; [lia|]. split; [exact He|]. split; [|exact Hr].
        intros i Hi. destruct (Nat.eq_dec i j) as [->|Hne]; [exact Hj|].
        apply Hb; lia.
      * right; split; [|exact Hr].
        intros i Hi. destruct (Nat.eq_dec i j) as [->|Hne]; [exact Hj|].
        apply Hb; lia.
Qed.

Lemma escape_spec (cr ci : float) (max_iter : Z) :
  spec_count cr ci max_iter (escape cr ci max_iter).
Proof.
  unfold escape.
  destruct (escape_loop_from cr ci max_iter (Z.to_nat max_iter) 0)
    as [(k & Hk & He & Hb & Hr) | (Hb & Hr)];
    cbn [orbit fst snd Z.of_nat] in Hr; rewrite Hr.
  - apply spec_escapes; [lia | exact He | intros j Hj; apply Hb; lia].
  - apply spec_bounded. intros k Hk; apply Hb; lia.
Qed.

(** ** Counts of single points *)

Lemma mandelbrot_tile_cell (c_real c_imag : grid float) (max_iter : Z)
      (i j : nat) (cr ci : float) :
  cell c_real i j = Some cr ->
  cell c_imag i j = Some ci ->
  cell (mandelbrot_tile c_real c_imag max_iter) i j = Some (escape cr ci max_iter).
Proof.
  intros Hr Hi. unfold mandelbrot_tile.
  rewrite (cell_imap2 (fun i j cr =>
             escape cr match cell c_imag i j with
                       | Some v => v
                       | None => 0%float
                       end max_iter)).
  now rewrite Hr, Hi.
Qed.

(** A cell of the output comes from a cell of [c_real]. *)
Lemma mandelbrot_tile_cell_inv (c_real c_imag : grid float) (max_iter : Z)
      (i j : nat) (count : Z) :
  cell (mandelbrot_tile c_real c_imag max_iter) i j = Some count ->
  exists cr ci : float, count = escape cr ci max_iter.
Proof.
  unfold mandelbrot_tile.
  rewrite (cell_imap2 (fun i j cr =>
             escape cr match cell c_imag i j with
                       | Some v => v
                       | None => 0%float
                       end max_iter)).
  destruct (cell c_real i j) as [cr|]; simpl; [|discriminate].
  intros [= <-]. eauto.
Qed.

Lemma escape_bounds (cr ci : float) (max_iter : Z) :
  0 < max_iter -> 0 <= escape cr ci max_iter <= max_iter - 1.
Proof.
  intros Hm. destruct (escape_spec cr ci max_iter) as [k Hk _ _ | _]; lia.
Qed.

Lemma escape_fits_int32 (cr ci : float) (max_iter : Z) :
  0 < max_iter <= 2 ^ 31 -> fits_int32 (escape cr ci max_iter).
Proof.
  intros Hm. pose proof (escape_bounds cr ci max_iter) as Hb.
  unfold fits_int32. lia.
Qed.

(** At [k = 0] the orbit is still at the origin: the test fails. *)
Lemma origin_not_escaped (cr ci : float) : escaped (orbit cr ci 0) = false.
Proof. reflexivity. Qed.

Lemma escape_positive (cr ci : float) (max_iter : Z) :
  2 <= max_iter -> 1 <= escape cr ci max_iter.
Proof.
  intros Hm. destruct (escape_spec cr ci max_iter) as [k Hk He _ | _]; [|lia].
  destruct k as [|k]; [|lia].
  rewrite origin_not_escaped in He; discriminate.
Qed.

Lemma escape_one_iteration (cr ci : float) : escape cr ci 1 = 0.
Proof. pose proof (escape_bounds cr ci 1); lia. Qed.

Lemma escape_zero_iff (cr ci : float) (max_iter : Z) :
  escape cr ci max_iter = 0 <-> max_iter = 1.
Proof.
  split.
  - intros H0.
    destruct (Z_lt_le_dec max_iter 2) as [Hlt|Hge].
    + destruct (Z_lt_le_dec 0 max_iter) as [Hpos|Hneg]; [lia|].
      unfold escape in H0.
      replace (Z.to_nat max_iter) with 0%nat in H0 by lia.
      simpl in H0. lia.
    + pose proof (escape_positive cr ci max_iter Hge). lia.
  - intros ->. apply escape_one_iteration.
Qed.

(** ** Binary64 facts used for points outside the disc of radius 2 *)

(** Adding a float to [+0] changes at most the sign of a zero. *)
Lemma add_zero_l (x : float) :
  (0 + x)%float = x \/ (x = (-0)%float /\ (0 + x)%float = 0%float).
Proof.
  destruct (Prim2SF x) as [s| s | |s m e] eqn:Hx.
  - assert (Hx' : x = SF2Prim (S754_zero s))
      by (rewrite <- Hx; symmetry; apply SF2Prim_Prim2SF).
    destruct s; subst x.
    + right; split; reflexivity.
    + left; reflexivity.
  - left. apply Prim2SF_inj. rewrite add_spec, Hx. reflexivity.
  - left. apply Prim2SF_inj. rewrite add_spec, Hx. reflexivity.
  - left. apply Prim2SF_inj. rewrite add_spec, Hx. reflexivity.
Qed.

Lemma add_zero_l_square (x : float) :
  ((0 + x) * (0 + x))%float = (x * x)%float.
Proof.
  destruct (add_zero_l x) as [-> | [-> _]]; reflexivity.
Qed.

(** After the first update the orbit is at [c], up to the sign of a zero. *)
Lemma escaped_after_one_step (cr ci : float) :
  escaped (orbit cr ci 1) = (threshold <? cr * cr + ci * ci)%float.
Proof.
  cbn [orbit orbit_step escaped].
  change (0 * 0 - 0 * 0)%float with 0%float.
  change (2 * 0 * 0)%float with 0%float.
  now rewrite !add_zero_l_square.
Qed.

Lemma escape_outside_disc (cr ci : float) (max_iter : Z) :
  (threshold <? cr * cr + ci * ci)%float = true ->
  2 <= max_iter ->
  escape cr ci max_iter = 1.
Proof.
  intros Hc Hm.
  rewrite <- escaped_after_one_step in Hc.
  destruct (escape_spec cr ci max_iter) as [k Hk He Hb | Hb].
  - destruct k as [|[|k]].
    + rewrite origin_not_escaped in He; discriminate.
    + reflexivity.
    + rewrite (Hb 1%nat) in Hc by lia. discriminate.
  - rewrite (Hb 1%nat) in Hc by lia. discriminate.
Qed.

(** ** Ranges *)

Lemma in_py_range (n x : Z) : In x (py_range n) <-> 0 <= x < n.
Proof.
  unfold py_range. rewrite in_map_iff. split.
  - intros (k & <- & Hk). apply in_seq in Hk. lia.
  - intros Hx. exists (Z.to_nat x). split; [lia|]. apply in_seq. lia.
Qed.

Lemma py_range_NoDup (n : Z) : NoDup (py_range n).
Proof.
  unfold py_range. apply Injective_map_NoDup.
  - intros a b Hab. lia.
  - apply seq_NoDup.
Qed.

Lemma nth_error_np_arange (a b : Z) (i : nat) :
  (i < Z.to_nat (b - a))%nat ->
  nth_error (np_arange a b) i = Some (a + Z.of_nat i).
Proof.
  intros Hi. unfold np_arange.
  rewrite nth_error_map, nth_error_seq.
  destruct (Nat.ltb_spec i (Z.to_nat (b - a))); [reflexivity | lia].
Qed.

Lemma np_arange_length (a b : Z) : length (np_arange a b) = Z.to_nat (b - a).
Proof. unfold np_arange. now rewrite length_map, length_seq. Qed.

Lemma imap_repeat {A B : Type} (f : nat -> A -> B) (a : A) (n : nat) :
  imap f (repeat a n) = map (fun i => f i a) (seq 0 n).
Proof.
  apply nth_error_ext. intros k.
  rewrite nth_error_imap, nth_error_map, nth_error_seq.
  destruct (Nat.ltb_spec k n) as [Hk|Hk].
  - now rewrite nth_error_repeat.
  - replace (nth_error (repeat a n) k) with (@None A); [reflexivity|].
    symmetry. apply nth_error_None. now rewrite repeat_length.
Qed.

Lemma imap_imap {A B C : Type} (f : nat -> B -> C) (g : nat -> A -> B) (l : list A) :
  imap f (imap g l) = imap (fun i a => f i (g i a)) l.
Proof.
  apply nth_error_ext. intros k.
  rewrite !nth_error_imap. now destruct (nth_error l k).
Qed.

Lemma imap_ext {A B : Type} (f g : nat -> A -> B) (l : list A) :
  (forall i a, nth_error l i = Some a -> f i a = g i a) ->
  imap f l = imap g l.
Proof.
  intros H. apply nth_error_ext. intros k.
  rewrite !nth_error_imap.
  destruct (nth_error l k) as [a|] eqn:Hk; simpl; [|reflexivity].
  now rewrite (H k a Hk).
Qed.

(** ** The coordinate mapper *)

Lemma tile_coords_cells (c : config) (xs xe ys ye : Z) (i j : nat) :
  (i < Z.to_nat (ye - ys))%nat ->
  (j < Z.to_nat (xe - xs))%nat ->
  cell (fst (tile_coords c xs xe ys ye)) i j = Some (pixel_re c (xs + Z.of_nat j)) /\
  cell (snd (tile_coords c xs xe ys ye)) i j = Some (pixel_im c (ys + Z.of_nat i)).
Proof.
  intros Hi Hj. unfold tile_coords, np_meshgrid, cell; cbn [fst snd].
  rewrite !nth_error_map.
  rewrite (nth_error_np_arange ys ye i Hi); cbn [option_map].
  rewrite !nth_error_map.
  rewrite (nth_error_np_arange xs xe j Hj); cbn [option_map].
  split; reflexivity.
Qed.

Lemma tile_coords_shape (c : config) (xs xe ys ye : Z) :
  let '(X, Y) := tile_coords c xs xe ys ye in
  length X = Z.to_nat (ye - ys) /\
  length Y = Z.to_nat (ye - ys) /\
  Forall (fun row => length row = Z.to_nat (xe - xs)) X /\
  Forall (fun row => length row = Z.to_nat (xe - xs)) Y.
Proof.
  unfold tile_coords, np_meshgrid.
  rewrite !length_map, np_arange_length.
  split; [reflexivity|]. split; [reflexivity|].
  split; apply Forall_forall; intros row Hrow; apply in_map_iff in Hrow;
    destruct Hrow as (y & <- & _); now rewrite !length_map, np_arange_length.
Qed.

(** ** Placing one tile *)

Lemma place_tile_paint (c : config) (S : nat -> nat -> bool) (g : grid Z) (r : rect) :
  place_tile c (paint c S g) r =
  paint c (fun i j => in_rect r (Z.of_nat j) (Z.of_nat i) || S i j) g.
Proof.
  unfold place_tile.
  destruct (tile_coords c (x_start r) (x_end r) (y_start r) (y_end r))
    as [X Y] eqn:Hxy.
  unfold assign_block, paint. rewrite imap_imap.
  apply imap_ext. intros i row _.
  rewrite imap_imap. apply imap_ext. intros j v _.
  destruct (in_rect r (Z.of_nat j) (Z.of_nat i)) eqn:Hin; [|reflexivity].
  cbn [orb].
  unfold in_rect in Hin.
  apply andb_prop in Hin; destruct Hin as [Hin Hy2].
  apply andb_prop in Hin; destruct Hin as [Hin Hy1].
  apply andb_prop in Hin; destruct Hin as [Hx1 Hx2].
  apply Z.leb_le in Hx1, Hy1. apply Z.ltb_lt in Hx2, Hy2.
  destruct (tile_coords_cells c (x_start r) (x_end r) (y_start r) (y_end r)
              (Z.to_nat (Z.of_nat i - y_start r))
              (Z.to_nat (Z.of_nat j - x_start r))) as [HX HY]; try lia.
  rewrite Hxy in HX, HY; cbn [fst snd] in HX, HY.
  rewrite (mandelbrot_tile_cell X Y (max_iter c) _ _ _ _ HX HY).
  unfold pixel_count.
  now replace (x_start r + Z.of_nat (Z.to_nat (Z.of_nat j - x_start r)))
    with (Z.of_nat j) by lia;
  replace (y_start r + Z.of_nat (Z.to_nat (Z.of_nat i - y_start r)))
    with (Z.of_nat i) by lia.
Qed.

Lemma paint_ext (c : config) (S S' : nat -> nat -> bool) (g : grid Z) :
  (forall i j, S i j = S' i j) -> paint c S g = paint c S' g.
Proof.
  intros H. unfold paint.
  apply imap_ext; intros i row _. apply imap_ext; intros j v _.
  now rewrite H.
Qed.

Lemma paint_nothing (c : config) (g : grid Z) :
  paint c (fun _ _ => false) g = g.
Proof.
  unfold paint. apply nth_error_ext; intros i.
  rewrite nth_error_imap. destruct (nth_error g i) as [row|]; [|reflexivity].
  cbn [option_map]. f_equal.
  apply nth_error_ext; intros j.
  rewrite nth_error_imap. now destruct (nth_error row j).
Qed.

(** ** The tile loops *)

Lemma fold_tiles_paint (c : config) (l : list rect) (S : nat -> nat -> bool) (g : grid Z) :
  fold_left (place_tile c) l (paint c S g) =
  paint c (fun i j => S i j || covered l i j) g.
Proof.
  revert S; induction l as [|r l IH]; intros S; cbn [fold_left].
  - apply paint_ext. intros i j. unfold covered; cbn. now rewrite orb_false_r.
  - rewrite place_tile_paint, IH. apply paint_ext. intros i j.
    unfold covered; cbn [existsb].
    destruct (S i j), (in_rect r (Z.of_nat j) (Z.of_nat i)); reflexivity.
Qed.

Lemma fold_left_map_list {A B C : Type} (f : A -> C -> A) (g : B -> C)
      (l : list B) (a : A) :
  fold_left f (map g l) a = fold_left (fun a b => f a (g b)) l a.
Proof. revert a; induction l as [|b l IH]; intros a; cbn; [reflexivity | apply IH]. Qed.

Lemma fold_left_flat_map {A B C : Type} (f : A -> C -> A) (g : B -> list C)
      (l : list B) (a : A) :
  fold_left f (flat_map g l) a = fold_left (fun a b => fold_left f (g b) a) l a.
Proof.
  revert a; induction l as [|b l IH]; intros a; cbn; [reflexivity|].
  now rewrite fold_left_app, IH.
Qed.

Lemma fold_left_same {A B : Type} (f g : A -> B -> A) (l : list B) (a : A) :
  (forall a b, f a b = g a b) -> fold_left f l a = fold_left g l a.
Proof.
  intros H. revert a; induction l as [|b l IH]; intros a; cbn; [reflexivity|].
  now rewrite H, IH.
Qed.

(** The nested loops visit the rectangles of [tile_rects] in order. *)
Lemma tile_loops_as_fold (c : config) (g : grid Z) :
  fold_left
    (fun result ty =>
       fold_left (fun result tx => process_tile c result tx ty)
                 (py_range (tile_count (width c) (tile_size c))) result)
    (py_range (tile_count (height c) (tile_size c))) g =
  fold_left (place_tile c) (tile_rects (width c) (height c) (tile_size c)) g.
Proof.
  unfold tile_rects. rewrite fold_left_flat_map.
  apply fold_left_same. intros result ty.
  now rewrite fold_left_map_list.
Qed.

(** ** Tile arithmetic *)

Lemma tile_count_eq (n ts : Z) : 0 < ts -> tile_count n ts = (n - 1) / ts + 1.
Proof.
  intros Hts. unfold tile_count.
  replace (n + ts - 1) with (n - 1 + 1 * ts) by lia.
  apply Z.div_add. lia.
Qed.

Lemma tile_of_index (n ts x : Z) :
  0 < ts -> 0 <= x < n -> 0 <= x / ts < tile_count n ts.
Proof.
  intros Hts Hx. rewrite tile_count_eq by assumption.
  assert (x / ts <= (n - 1) / ts) by (apply Z.div_le_mono; lia).
  assert (0 <= x / ts) by (apply Z.div_pos; lia).
  lia.
Qed.

Lemma in_span_iff (n ts t x : Z) :
  0 < ts -> in_span n ts t x = true <-> (t = x / ts /\ x < n).
Proof.
  intros Hts. unfold in_span.
  rewrite andb_true_iff, Z.leb_le, Z.ltb_lt.
  pose proof (Z.div_mod x ts ltac:(lia)) as Hdm.
  pose proof (Z.mod_pos_bound x ts Hts) as Hmod.
  split.
  - intros [H1 H2]. split; [|lia].
    assert (H3 : x < t * ts + ts) by lia.
    apply (Z.div_unique x ts t (x - t * ts)); lia.
  - intros [-> Hn]. nia.
Qed.

Lemma in_rect_tile (w h ts tx ty x y : Z) :
  in_rect (tile_rect w h ts tx ty) x y = in_span w ts tx x && in_span h ts ty y.
Proof.
  unfold in_rect, tile_rect, in_span; cbn [x_start x_end y_start y_end].
  now rewrite !andb_assoc.
Qed.

(** ** Counting the tiles that contain a pixel *)

Lemma filter_none {A : Type} (p : A -> bool) (l : list A) :
  (forall a, In a l -> p a = false) -> filter p l = [].
Proof.
  induction l as [|a l IH]; intros H; cbn; [reflexivity|].
  rewrite (H a (or_introl eq_refl)). apply IH. intros b Hb. apply H. now right.
Qed.

Lemma filter_unique {A : Type} (p : A -> bool) (l : list A) (a0 : A) :
  NoDup l -> In a0 l -> p a0 = true ->
  (forall a, In a l -> p a = true -> a = a0) ->
  filter p l = [a0].
Proof.
  induction l as [|a l IH]; intros Hnd Hin Hp Hu; [contradiction|].
  inversion Hnd as [|? ? Hnotin Hnd']; subst. cbn.
  destruct Hin as [->|Hin].
  - rewrite Hp. f_equal. apply filter_none. intros b Hb.
    destruct (p b) eqn:Hpb; [|reflexivity].
    exfalso. apply Hnotin. now rewrite <- (Hu b (or_intror Hb) Hpb).
  - destruct (p a) eqn:Hpa.
    + exfalso. apply Hnotin. now rewrite (Hu a (or_introl eq_refl) Hpa).
    + apply IH; auto. intros b Hb. apply Hu. now right.
Qed.

(** Along one axis, an index of the raster lies in one span, an index
    outside of it in none. *)
Lemma spans_count (n ts x : Z) :
  0 < ts ->
  length (filter (fun t => in_span n ts t x) (py_range (tile_count n ts))) =
  if (0 <=? x) && (x <? n) then 1%nat else 0%nat.
Proof.
  intros Hts.
  destruct ((0 <=? x) && (x <? n)) eqn:Hx.
  - apply andb_prop in Hx. destruct Hx as [H0 Hn].
    apply Z.leb_le in H0. apply Z.ltb_lt in Hn.
    rewrite (filter_unique _ _ (x / ts)); [reflexivity | | | | ].
    + apply py_range_NoDup.
    + apply in_py_range. apply tile_of_index; lia.
    + apply in_span_iff; [assumption | split; [reflexivity | assumption]].
    + intros t _ Ht. apply in_span_iff in Ht; [tauto | assumption].
  - rewrite filter_none; [reflexivity|].
    intros t Ht. apply in_py_range in Ht.
    destruct (in_span n ts t x) eqn:Hs; [|reflexivity].
    apply in_span_iff in Hs; [|assumption]. destruct Hs as [-> Hn].
    apply andb_false_iff in Hx. rewrite Z.leb_gt, Z.ltb_ge in Hx.
    destruct Hx as [Hx|Hx]; [|lia].
    assert (x / ts < 0) by (apply Z.div_lt_upper_bound; lia). lia.
Qed.

Lemma filter_product_length {A B C : Type} (f : A -> B -> C)
      (p : A -> bool) (q : B -> bool) (r : C -> bool) (la : list A) (lb : list B) :
  (forall a b, r (f a b) = p a && q b) ->
  length (filter r (flat_map (fun b => map (fun a => f a b) la) lb)) =
  (length (filter p la) * length (filter q lb))%nat.
Proof.
  intros Hr. induction lb as [|b lb IH]; cbn [flat_map filter length].
  - lia.
  - rewrite filter_app, length_app, IH.
    assert (Hrow : length (filter r (map (fun a => f a b) la)) =
                   if q b then length (filter p la) else 0%nat).
    { clear IH. induction la as [|a la IHa]; cbn [map filter length].
      - now destruct (q b).
      - rewrite Hr. destruct (p a), (q b); cbn [andb length]; lia. }
    rewrite Hrow. destruct (q b); cbn [length]; lia.
Qed.

Lemma tiles_count (w h ts x y : Z) :
  0 < ts ->
  length (filter (fun r => in_rect r x y) (tile_rects w h ts)) =
  if in_raster w h x y then 1%nat else 0%nat.
Proof.
  intros Hts. unfold tile_rects.
  rewrite (filter_product_length (tile_rect w h ts)
             (fun tx => in_span w ts tx x) (fun ty => in_span h ts ty y))
    by (intros; apply in_rect_tile).
  rewrite !spans_count by assumption.
  unfold in_raster.
  destruct ((0 <=? x) && (x <? w)), ((0 <=? y) && (y <? h)); reflexivity.
Qed.

Lemma covered_raster (w h ts : Z) (i j : nat) :
  0 < ts -> Z.of_nat i < h -> Z.of_nat j < w ->
  covered (tile_rects w h ts) i j = true.
Proof.
  intros Hts Hi Hj. unfold covered.
  pose proof (tiles_count w h ts (Z.of_nat j) (Z.of_nat i) Hts) as Hc.
  replace (in_raster w h (Z.of_nat j) (Z.of_nat i)) with true in Hc.
  - destruct (filter (fun r => in_rect r (Z.of_nat j) (Z.of_nat i))
                     (tile_rects w h ts)) as [|r l] eqn:Hf; [discriminate|].
    assert (Hin : In r (filter (fun r => in_rect r (Z.of_nat j) (Z.of_nat i))
                               (tile_rects w h ts)))
      by (rewrite Hf; now left).
    apply filter_In in Hin. apply existsb_exists. exists r. exact Hin.
  - symmetry. unfold in_raster.
    rewrite !andb_true_iff, !Z.leb_le, !Z.ltb_lt. lia.
Qed.

(** With [ts = max(w, h)] there is one tile and it is the raster. *)
Lemma single_tile (w h : Z) :
  0 < w -> 0 < h ->
  tile_rects w h (Z.max w h) = [mkRect 0 w 0 h].
Proof.
  intros Hw Hh. unfold tile_rects.
  assert (Hone : forall n, 0 < n <= Z.max w h -> tile_count n (Z.max w h) = 1).
  { intros n Hn. rewrite tile_count_eq by lia.
    rewrite Z.div_small by lia. reflexivity. }
  rewrite (Hone w), (Hone h) by lia.
  change (py_range 1) with [0].
  cbn [map flat_map app]. unfold tile_rect.
  replace (Z.min (0 * Z.max w h + Z.max w h) w) with w by lia.
  replace (Z.min (0 * Z.max w h + Z.max w h) h) with h by lia.
  reflexivity.
Qed.

(** ** The buffer of a render *)

Lemma render_buffer_painted (c : config) :
  0 < width c -> 0 < height c -> tile_size c <> 0 ->
  render_buffer c =
  Ok (paint c (covered (tile_rects (width c) (height c) (tile_size c)))
            (np_zeros (height c) (width c))).
Proof.
  intros Hw Hh Hts. unfold render_buffer.
  destruct (Z.eqb_spec (width c) 0); [lia|].
  destruct (Z.eqb_spec (height c) 0); [lia|].
  destruct (Z.ltb_spec (height c) 0); [lia|].
  destruct (Z.ltb_spec (width c) 0); [lia|].
  destruct (Z.eqb_spec (tile_size c) 0); [contradiction|].
  cbn [orb]. f_equal.
  rewrite tile_loops_as_fold.
  rewrite <- (paint_nothing c (np_zeros (height c) (width c))) at 1.
  rewrite fold_tiles_paint. now apply paint_ext.
Qed.

Lemma paint_everything (c : config) (S : nat -> nat -> bool) :
  (forall i j, Z.of_nat i < height c -> Z.of_nat j < width c -> S i j = true) ->
  paint c S (np_zeros (height c) (width c)) = pixel_grid c.
Proof.
  intros HS. unfold paint, np_zeros, pixel_grid, py_range.
  rewrite imap_repeat, map_map.
  apply map_ext_in. intros i Hi. apply in_seq in Hi.
  rewrite imap_repeat, map_map.
  apply map_ext_in. intros j Hj. apply in_seq in Hj.
  rewrite HS by lia. reflexivity.
Qed.

Lemma render_buffer_pixels (c : config) :
  0 < width c -> 0 < height c -> 0 < tile_size c ->
  render_buffer c = Ok (pixel_grid c).
Proof.
  intros Hw Hh Hts.
  rewrite render_buffer_painted by lia. f_equal.
  apply paint_everything. intros i j Hi Hj.
  now apply covered_raster.
Qed.

Lemma cell_np_zeros (h w : Z) (i j : nat) (v : Z) :
  cell (np_zeros h w) i j = Some v -> v = 0.
Proof.
  unfold cell, np_zeros. intros H.
  destruct (nth_error (repeat (repeat 0 (Z.to_nat w)) (Z.to_nat h)) i)
    as [row|] eqn:Hrow; [|discriminate].
  apply nth_error_In, repeat_spec in Hrow. subst row.
  apply nth_error_In, repeat_spec in H. exact H.
Qed.

Lemma cell_paint (c : config) (S : nat -> nat -> bool) (g : grid Z) (i j : nat) (v : Z) :
  cell (paint c S g) i j = Some v ->
  v = pixel_count c (Z.of_nat j) (Z.of_nat i) \/ cell g i j = Some v.
Proof.
  unfold paint.
  rewrite (cell_imap2 (fun i j v =>
             if S i j then pixel_count c (Z.of_nat j) (Z.of_nat i) else v)).
  destruct (cell g i j) as [v0|]; cbn [option_map]; [|discriminate].
  destruct (S i j); intros [= <-]; auto.
Qed.

(** ** Binary64 facts used for the normalisation *)

(** A finite non-zero float divided by itself is exactly 1. *)
Lemma div_self_finite (x : float) (s : bool) (m : positive) (e : Z) :
  Prim2SF x = S754_finite s m e -> (x / x)%float = 1%float.
Proof.
  intros Hx. apply Prim2SF_inj. rewrite div_spec, Hx.
  unfold SF64div, SFdiv, SFdiv_core_binary.
  replace (Zdigits2 (Z.pos m) + e - (Zdigits2 (Z.pos m) + e)) with 0 by lia.
  replace (e - e) with 0 by lia.
  change (Z.min (fexp prec emax 0) 0) with (-53).
  change (0 - -53) with 53.
  cbv iota beta.
  assert (Hq : Z.div_eucl (Z.shiftl (Z.pos m) 53) (Z.pos m) = (2 ^ 53, 0)).
  { rewrite Z.shiftl_mul_pow2 by lia.
    pose proof (Z.div_eucl_eq (Z.pos m * 2 ^ 53) (Z.pos m) ltac:(lia)) as Heq.
    pose proof (Z.mod_pos_bound (Z.pos m * 2 ^ 53) (Z.pos m) ltac:(lia)) as Hb.
    unfold Z.modulo in Hb.
    destruct (Z.div_eucl (Z.pos m * 2 ^ 53) (Z.pos m)) as [q r].
    assert (q = 2 ^ 53) by nia. subst q. f_equal. lia. }
  rewrite Hq.
  unfold new_location, new_location_even, new_location_odd.
  destruct s, (Z.even (Z.pos m)); reflexivity.
Qed.

(** The quotient of two zeros is NaN: the division is carried out. *)
Lemma div_zero_zero (x : float) (s : bool) :
  Prim2SF x = S754_zero s -> (x / x)%float = nan.
Proof.
  intros Hx. apply Prim2SF_inj. rewrite div_spec, Hx. reflexivity.
Qed.

(** ** Post-processing a uniform buffer *)

Lemma fmax_same (x : float) : fmax x x = x.
Proof. unfold fmax. destruct (is_nan x), (x <? x)%float; reflexivity. Qed.

Lemma fold_fmax_repeat (x : float) (n : nat) : fold_left fmax (repeat x n) x = x.
Proof. induction n as [|n IH]; cbn; [reflexivity|]. now rewrite fmax_same. Qed.

Lemma concat_uniform {A : Type} (h w : nat) (v : A) :
  concat (uniform h w v) = repeat v (h * w).
Proof.
  unfold uniform. induction h as [|h IH]; cbn; [reflexivity|].
  now rewrite IH, repeat_app.
Qed.

Lemma np_max_uniform (h w : nat) (x : float) :
  (0 < h)%nat -> (0 < w)%nat -> np_max (uniform h w x) = Ok x.
Proof.
  intros Hh Hw. unfold np_max. rewrite concat_uniform.
  destruct h as [|h]; [lia|]. destruct w as [|w]; [lia|].
  cbn [Nat.mul Nat.add repeat]. now rewrite fold_fmax_repeat.
Qed.

Lemma map_uniform {A B : Type} (f : A -> B) (h w : nat) (v : A) :
  map (map f) (uniform h w v) = uniform h w (f v).
Proof. unfold uniform. now rewrite !map_repeat. Qed.

Lemma normalize_uniform (h w : nat) (x : float) :
  (0 < h)%nat -> (0 < w)%nat ->
  normalize (uniform h w x) = Ok (uniform h w (x / x * 255)%float).
Proof.
  intros Hh Hw. unfold normalize.
  rewrite (np_max_uniform h w x Hh Hw). cbn [bind].
  now rewrite map_uniform.
Qed.


(** With all counts 0 and [log(1.0)] a zero, the divisor is 0 and it is
    divided by: every normalised value is NaN. *)
Lemma all_zero_buffer_divides_by_zero (np_log : float -> float) (h w : nat) (s : bool) :
  (0 < h)%nat -> (0 < w)%nat ->
  Prim2SF (np_log 1%float) = S754_zero s ->
  np_max (log_scale np_log (uniform h w 0)) = Ok (np_log 1%float) /\
  normalize (log_scale np_log (uniform h w 0)) = Ok (uniform h w nan).
Proof.
  intros Hh Hw Hlog. unfold log_scale. rewrite map_uniform.
  change (float_of_Z (0 + 1)) with 1%float.
  split; [now apply np_max_uniform|].
  rewrite normalize_uniform by assumption.
  now rewrite (div_zero_zero _ s Hlog).
Qed.

(** ** Points whose orbit never escapes *)







(** ** Counts and the 32-bit cells of the buffer *)

(** When [max_iter - 1] fits a 32-bit cell, so does every value the loop
    stores: the counts [k] lie between 0 and [max_iter - 1]. *)
Lemma escape_in_cell_range (cr ci : float) (max_iter : Z) :
  fits_int32 (max_iter - 1) -> fits_int32 (escape cr ci max_iter).
Proof.
  unfold fits_int32. intros Hfit.
  destruct (Z_lt_le_dec 0 max_iter) as [Hpos | Hneg].
  - pose proof (escape_bounds cr ci max_iter Hpos). lia.
  - unfold escape. replace (Z.to_nat max_iter) with 0%nat by lia.
    cbn [escape_loop]. lia.
Qed.

(** ** The statements of the specification *)

(** C1.  For every point [(cr, ci)] of the input grids and every positive
    [max_iter], the count [mandelbrot_tile] stores is the one the recurrence
    prescribes: with the orbit started at [zr = zi = 0] and updated by
    [zi <- 2*zr*zi + ci], [zr <- zr2 - zi2 + cr], it is the first
    [k < max_iter] at which [zr2 + zi2 > 4.0], and [max_iter - 1] when no
    iteration meets the escape condition. *)
Theorem evaluator_follows_recurrence
        (c_real c_imag : grid float) (max_iter : Z) (i j : nat) (cr ci : float) :
  0 < max_iter ->
  cell c_real i j = Some cr ->
  cell c_imag i j = Some ci ->
  exists count : Z,
    cell (mandelbrot_tile c_real c_imag max_iter) i j = Some count /\
    spec_count cr ci max_iter count.
Proof.
  intros _ Hr Hi. exists (escape cr ci max_iter). split.
  - now apply mandelbrot_tile_cell.
  - apply escape_spec.
Qed.

Lemma evaluator_follows_recurrence_witness :
  exists count : Z,
    cell (mandelbrot_tile [[5%float]] [[5%float]] 256) 0 0 = Some count /\
    spec_count 5%float 5%float 256 count.
Proof.
  apply (evaluator_follows_recurrence [[5%float]] [[5%float]] 256 0 0 5%float 5%float);
    reflexivity.
Defined.

(** C2, as the specification states it, fails: the point [5 + 5i] lies
    outside the disc of radius 2 and its recorded count is 1, not 0. *)
Lemma far_point_count_is_not_zero :
  (threshold <? 5 * 5 + 5 * 5)%float = true /\
  cell (mandelbrot_tile [[5%float]] [[5%float]] 256) 0 0 = Some 1 /\
  cell (mandelbrot_tile [[5%float]] [[5%float]] 256) 0 0 <> Some 0.
Proof.
  split; [reflexivity|]. split; [vm_compute; reflexivity|].
  vm_compute. discriminate.
Qed.

(** C2, amended.  For every input point with [cr*cr + ci*ci > 4.0] in
    binary64, the recorded count is 1 for every [max_iter >= 2], because the
    escape test first sees [z = c] at [k = 1]; it is 0 only for
    [max_iter = 1]. *)
Theorem far_point_count
        (c_real c_imag : grid float) (max_iter : Z) (i j : nat) (cr ci : float) :
  cell c_real i j = Some cr ->
  cell c_imag i j = Some ci ->
  (threshold <? cr * cr + ci * ci)%float = true ->
  (2 <= max_iter ->
   cell (mandelbrot_tile c_real c_imag max_iter) i j = Some 1) /\
  (max_iter = 1 ->
   cell (mandelbrot_tile c_real c_imag max_iter) i j = Some 0).
Proof.
  intros Hr Hi Hc.
  rewrite (mandelbrot_tile_cell c_real c_imag max_iter i j cr ci Hr Hi).
  split.
  - intros Hm. now rewrite escape_outside_disc.
  - intros ->. now rewrite escape_one_iteration.
Qed.

Lemma far_point_count_witness :
  (2 <= 256 -> cell (mandelbrot_tile [[5%float]] [[5%float]] 256) 0 0 = Some 1) /\
  (256 = 1 -> cell (mandelbrot_tile [[5%float]] [[5%float]] 256) 0 0 = Some 0).
Proof.
  apply (far_point_count [[5%float]] [[5%float]] 256 0 0 5%float 5%float);
    reflexivity.
Defined.




(** C4, as the specification states it, fails: a viewport inverted on both
    axes, [max_iter = 0] and a negative [tile_size] are each accepted, and
    the render runs to a complete buffer; with [tile_size = 0] the exception
    comes after the buffer has been allocated. *)
Lemma invalid_inputs_are_rendered :
  render_buffer (inverted_config 4 1) = Ok [[2; 3]; [3; 3]] /\
  render_buffer (inverted_config 0 1) = Ok [[-1; -1]; [-1; -1]] /\
  render_buffer (inverted_config 4 (-1)) = Ok [[0; 0]; [0; 0]] /\
  render_buffer (inverted_config 4 0) = Raise ZeroDivisionError true.
Proof.
  repeat split; vm_compute; reflexivity.
Qed.

(** C4, amended.  The render validates none of its arguments; a call fails
    only where one of its own statements does.  [width = 0] or [height = 0]
    raises [ZeroDivisionError] at the scale computation and a negative
    [width] or [height] raises [ValueError] at the allocation, both with
    nothing allocated; [tile_size = 0] raises [ZeroDivisionError] at the
    tile-grid computation, once the buffer is allocated and before any tile
    is computed.  With positive [width] and [height], a non-zero
    [tile_size] and [max_iter - 1] within the range of the buffer's 32-bit
    cells, the render returns a buffer, every count of which fits its cell,
    whatever the viewport bounds are and whether or not [max_iter] is
    positive. *)
Theorem render_failures (c : config) :
  (width c = 0 \/ height c = 0 ->
   render_buffer c = Raise ZeroDivisionError false) /\
  (width c <> 0 -> height c <> 0 -> width c < 0 \/ height c < 0 ->
   render_buffer c = Raise ValueError false) /\
  (0 < width c -> 0 < height c -> tile_size c = 0 ->
   render_buffer c = Raise ZeroDivisionError true) /\
  (0 < width c -> 0 < height c -> tile_size c <> 0 ->
   fits_int32 (max_iter c - 1) ->
   exists buf : grid Z,
     render_buffer c = Ok buf /\ all_cells fits_int32 buf).
Proof.
  split; [|split; [|split]].
  - unfold render_buffer. intros [Hw | Hh].
    + rewrite Hw. reflexivity.
    + rewrite Hh. cbn [Z.eqb]. now destruct (width c =? 0).
  - unfold render_buffer. intros Hw Hh Hneg.
    destruct (Z.eqb_spec (width c) 0); [contradiction|].
    destruct (Z.eqb_spec (height c) 0); [contradiction|].
    destruct (Z.ltb_spec (height c) 0), (Z.ltb_spec (width c) 0);
      cbn [orb]; (reflexivity || lia).
  - unfold render_buffer. intros Hw Hh Hts.
    destruct (Z.eqb_spec (width c) 0); [lia|].
    destruct (Z.eqb_spec (height c) 0); [lia|].
    destruct (Z.ltb_spec (height c) 0); [lia|].
    destruct (Z.ltb_spec (width c) 0); [lia|].
    cbn [orb]. rewrite Hts. reflexivity.
  - intros Hw Hh Hts Hfit.
    rewrite (render_buffer_painted c Hw Hh Hts).
    eexists. split; [reflexivity|].
    intros i j v Hv. apply cell_paint in Hv. destruct Hv as [-> | Hz].
    + now apply escape_in_cell_range.
    + apply cell_np_zeros in Hz. subst v. unfold fits_int32. lia.
Qed.

Lemma render_failures_witness :
  exists buf : grid Z,
    render_buffer (inverted_config 0 1) = Ok buf /\ all_cells fits_int32 buf.
Proof.
  apply (render_failures (inverted_config 0 1));
    [reflexivity | reflexivity | discriminate | unfold fits_int32; cbn; lia].
Defined.

(** C5.  For every configuration with a positive width and height, a tile
    size of [max(width, height)] makes the whole raster a single tile, and
    the render with it and the render with any positive [tile_size], whether
    or not it divides the raster evenly, produce the same Divergence Buffer,
    cell for cell. *)
Theorem tile_size_invariance (c : config) (ts : Z) :
  0 < width c -> 0 < height c -> 0 < ts ->
  tile_rects (width c) (height c) (Z.max (width c) (height c)) =
    [mkRect 0 (width c) 0 (height c)] /\
  exists buf : grid Z,
    render_buffer (with_tile_size c (Z.max (width c) (height c))) = Ok buf /\
    render_buffer (with_tile_size c ts) = Ok buf.
Proof.
  intros Hw Hh Hts. split; [now apply single_tile|].
  exists (pixel_grid c). split.
  - apply (render_buffer_pixels (with_tile_size c (Z.max (width c) (height c))));
      cbn [with_tile_size width height tile_size]; lia.
  - apply (render_buffer_pixels (with_tile_size c ts));
      cbn [with_tile_size width height tile_size]; lia.
Qed.

Lemma tile_size_invariance_witness :
  tile_rects 6 5 (Z.max 6 5) = [mkRect 0 6 0 5] /\
  exists buf : grid Z,
    render_buffer (with_tile_size (quick_config 1) (Z.max 6 5)) = Ok buf /\
    render_buffer (with_tile_size (quick_config 1) 4) = Ok buf.
Proof.
  apply (tile_size_invariance (quick_config 1) 4); reflexivity.
Defined.

(** C6.  For every raster of width [W] and height [H], every viewport and
    every tile rectangle, the coordinate mapper yields two grids of the
    tile's shape in which the pixel of global column [x] and global row [y]
    has real part [x_min + x * ((x_max - x_min) / W)] and imaginary part
    [y_min + y * ((y_max - y_min) / H)], all operations being the binary64
    ones in the order the program applies them. *)
Theorem coordinate_mapper (c : config) (r : rect) (x y : Z) :
  in_rect r x y = true ->
  let '(X, Y) := tile_coords c (x_start r) (x_end r) (y_start r) (y_end r) in
  cell X (Z.to_nat (y - y_start r)) (Z.to_nat (x - x_start r)) =
    Some (x_min c + float_of_Z x * ((x_max c - x_min c) / float_of_Z (width c)))%float /\
  cell Y (Z.to_nat (y - y_start r)) (Z.to_nat (x - x_start r)) =
    Some (y_min c + float_of_Z y * ((y_max c - y_min c) / float_of_Z (height c)))%float /\
  length X = Z.to_nat (y_end r - y_start r) /\
  length Y = Z.to_nat (y_end r - y_start r) /\
  Forall (fun row => length row = Z.to_nat (x_end r - x_start r)) X /\
  Forall (fun row => length row = Z.to_nat (x_end r - x_start r)) Y.
Proof.
  intros Hin. unfold in_rect in Hin.
  rewrite !andb_true_iff, !Z.leb_le, !Z.ltb_lt in Hin.
  pose proof (tile_coords_shape c (x_start r) (x_end r) (y_start r) (y_end r)) as Hs.
  destruct (tile_coords_cells c (x_start r) (x_end r) (y_start r) (y_end r)
              (Z.to_nat (y - y_start r)) (Z.to_nat (x - x_start r)))
    as [HX HY]; try lia.
  destruct (tile_coords c (x_start r) (x_end r) (y_start r) (y_end r)) as [X Y].
  cbn [fst snd] in HX, HY.
  split; [|split; [|exact Hs]].
  - rewrite HX. unfold pixel_re, x_scale.
    now replace (x_start r + Z.of_nat (Z.to_nat (x - x_start r))) with x by lia.
  - rewrite HY. unfold pixel_im, y_scale.
    now replace (y_start r + Z.of_nat (Z.to_nat (y - y_start r))) with y by lia.
Qed.

Lemma coordinate_mapper_witness :
  let '(X, Y) := tile_coords (quick_config 4) 4 6 4 5 in
  cell X 0 1 = Some ((-2) + float_of_Z 5 * ((0.5 - (-2)) / float_of_Z 6))%float /\
  cell Y 0 1 = Some ((-1.25) + float_of_Z 4 * ((1.25 - (-1.25)) / float_of_Z 5))%float /\
  length X = 1%nat /\
  length Y = 1%nat /\
  Forall (fun row => length row = 2%nat) X /\
  Forall (fun row => length row = 2%nat) Y.
Proof.
  apply (coordinate_mapper (quick_config 4) (tile_rect 6 5 4 1 1) 5 4).
  reflexivity.
Defined.

(** C7.  For every resolution and every positive [tile_size], the tiles of
    the ceiling-division grid, tile [(tx, ty)] spanning the columns
    [tx * tile_size, min((tx + 1) * tile_size, width)) and the rows
    [ty * tile_size, min((ty + 1) * tile_size, height)), cover the raster
    exactly once: a pixel of the raster lies in exactly one tile, and a
    point outside the raster in none. *)
Theorem tiles_partition_raster (w h ts x y : Z) :
  0 < ts ->
  (forall r : rect,
      In r (tile_rects w h ts) <->
      exists tx ty : Z,
        0 <= tx < (w + ts - 1) / ts /\
        0 <= ty < (h + ts - 1) / ts /\
        r = mkRect (tx * ts) (Z.min ((tx + 1) * ts) w)
                   (ty * ts) (Z.min ((ty + 1) * ts) h)) /\
  length (filter (fun r => in_rect r x y) (tile_rects w h ts)) =
  if in_raster w h x y then 1%nat else 0%nat.
Proof.
  intros Hts. split; [|now apply tiles_count].
  intros r. unfold tile_rects. rewrite in_flat_map. split.
  - intros (ty & Hty & Hr). apply in_map_iff in Hr. destruct Hr as (tx & <- & Htx).
    apply in_py_range in Hty, Htx. exists tx, ty.
    split; [exact Htx|]. split; [exact Hty|].
    unfold tile_rect. f_equal; f_equal; lia.
  - intros (tx & ty & Htx & Hty & ->). exists ty. split.
    + now apply in_py_range.
    + apply in_map_iff. exists tx. split; [|now apply in_py_range].
      unfold tile_rect. f_equal; f_equal; lia.
Qed.

Lemma tiles_partition_raster_witness :
  (forall r : rect,
      In r (tile_rects 6 5 4) <->
      exists tx ty : Z,
        0 <= tx < (6 + 4 - 1) / 4 /\
        0 <= ty < (5 + 4 - 1) / 4 /\
        r = mkRect (tx * 4) (Z.min ((tx + 1) * 4) 6)
                   (ty * 4) (Z.min ((ty + 1) * 4) 5)) /\
  length (filter (fun r => in_rect r 5 4) (tile_rects 6 5 4)) =
  if in_raster 6 5 5 4 then 1%nat else 0%nat.
Proof.
  apply (tiles_partition_raster 6 5 4 5 4). reflexivity.
Defined.

(** C8.  For every configuration with a positive [max_iter] and every cell
    of the Divergence Buffer the render produces, the recorded count
    satisfies [0 <= count <= max_iter - 1]. *)
Theorem render_counts_bounded (c : config) (buf : grid Z) :
  0 < max_iter c ->
  render_buffer c = Ok buf ->
  all_cells (fun count => 0 <= count <= max_iter c - 1) buf.
Proof.
  intros Hm Hbuf.
  assert (Hdims : 0 < width c /\ 0 < height c /\ tile_size c <> 0).
  { unfold render_buffer in Hbuf.
    destruct (Z.eqb_spec (width c) 0); [discriminate|].
    destruct (Z.eqb_spec (height c) 0); [discriminate|].
    destruct (Z.ltb_spec (height c) 0); [discriminate|].
    destruct (Z.ltb_spec (width c) 0); [discriminate|].
    destruct (Z.eqb_spec (tile_size c) 0); [discriminate|].
    lia. }
  destruct Hdims as (Hw & Hh & Hts).
  rewrite (render_buffer_painted c Hw Hh Hts) in Hbuf.
  injection Hbuf as <-.
  intros i j v Hv. apply cell_paint in Hv. destruct Hv as [-> | Hz].
  - now apply escape_bounds.
  - apply cell_np_zeros in Hz. lia.
Qed.

Lemma render_counts_bounded_witness :
  all_cells (fun count => 0 <= count <= 32 - 1)
            [[1; 1; 2; 3; 3; 2]; [1; 3; 3; 4; 8; 7]; [1; 5; 31; 13; 31; 31];
             [1; 5; 31; 13; 31; 31]; [1; 3; 3; 4; 8; 7]].
Proof.
  apply (render_counts_bounded (quick_config 4)); [reflexivity | vm_compute; reflexivity].
Defined.

(** C10.  For every pair of input grids, a cell of the evaluator's output
    holds 0 only when [max_iter = 1]: the escape test of [k = 0] sees
    [z = 0] and cannot succeed, so every recorded count is at least 1 once
    [max_iter >= 2], and every cell is 0 when [max_iter = 1]. *)
Theorem zero_count_only_for_one_iteration
        (c_real c_imag : grid float) (max_iter : Z) (i j : nat) (count : Z) :
  cell (mandelbrot_tile c_real c_imag max_iter) i j = Some count ->
  (count = 0 <-> max_iter = 1) /\ (2 <= max_iter -> 1 <= count).
Proof.
  intros Hc. apply mandelbrot_tile_cell_inv in Hc. destruct Hc as (cr & ci & ->).
  split; [apply escape_zero_iff | apply escape_positive].
Qed.

Lemma zero_count_only_for_one_iteration_witness :
  (1 = 0 <-> 256 = 1) /\ (2 <= 256 -> 1 <= 1).
Proof.
  apply (zero_count_only_for_one_iteration [[5%float]] [[5%float]] 256 0 0 1).
  vm_compute; reflexivity.
Defined.

(** ** Further properties of the program *)

Lemma length_imap {A B : Type} (f : nat -> A -> B) (l : list A) :
  length (imap f l) = length l.
Proof.
  unfold imap. generalize 0%nat.
  induction l as [|a l IH]; intros i; cbn; [reflexivity | now rewrite IH].
Qed.

Lemma imap2_shape {A B : Type} (f : nat -> nat -> A -> B) (g : grid A) :
  map (@length B) (imap (fun i row => imap (f i) row) g) = map (@length A) g.
Proof.
  apply nth_error_ext. intros i.
  rewrite !nth_error_map, nth_error_imap.
  destruct (nth_error g i) as [row|]; cbn [option_map]; [|reflexivity].
  now rewrite length_imap.
Qed.

Lemma paint_shape (c : config) (S : nat -> nat -> bool) (g : grid Z) :
  map (@length Z) (paint c S g) = map (@length Z) g.
Proof.
  unfold paint.
  apply (imap2_shape (fun i j v =>
           if S i j then pixel_count c (Z.of_nat j) (Z.of_nat i) else v)).
Qed.

Lemma np_zeros_shape (h w : Z) :
  map (@length Z) (np_zeros h w) = repeat (Z.to_nat w) (Z.to_nat h).
Proof. unfold np_zeros. now rewrite map_repeat, repeat_length. Qed.

(** A render that returns had positive sizes and a non-zero tile size. *)
Lemma render_buffer_ok (c : config) (buf : grid Z) :
  render_buffer c = Ok buf ->
  0 < width c /\ 0 < height c /\ tile_size c <> 0.
Proof.
  unfold render_buffer. intros Hbuf.
  destruct (Z.eqb_spec (width c) 0); [discriminate|].
  destruct (Z.eqb_spec (height c) 0); [discriminate|].
  destruct (Z.ltb_spec (height c) 0); [discriminate|].
  destruct (Z.ltb_spec (width c) 0); [discriminate|].
  destruct (Z.eqb_spec (tile_size c) 0); [discriminate|].
  lia.
Qed.

(** X2.  Whenever the tile loops of a render complete, the Divergence Buffer
    has exactly [height] rows of [width] cells each, whatever the tile size:
    placing tiles never changes the shape of the buffer. *)
Theorem render_buffer_shape (c : config) (buf : grid Z) :
  render_buffer c = Ok buf ->
  map (@length Z) buf = repeat (Z.to_nat (width c)) (Z.to_nat (height c)).
Proof.
  intros Hbuf.
  destruct (render_buffer_ok c buf Hbuf) as (Hw & Hh & Hts).
  rewrite (render_buffer_painted c Hw Hh Hts) in Hbuf.
  injection Hbuf as <-.
  now rewrite paint_shape, np_zeros_shape.
Qed.

Lemma render_buffer_shape_witness :
  map (@length Z) [[2; 3]; [3; 3]] = repeat (Z.to_nat 2) (Z.to_nat 2).
Proof.
  apply (render_buffer_shape (inverted_config 4 1)). vm_compute; reflexivity.
Defined.

(** X3.  For a positive [tile_size], every tile the loops visit is a
    non-empty rectangle inside the raster whose width and height are at
    most [tile_size]: a tile never holds more than [tile_size * tile_size]
    pixels and never reaches outside the image. *)
Theorem tile_extents (w h ts : Z) (r : rect) :
  0 < ts ->
  In r (tile_rects w h ts) ->
  (0 <= x_start r < x_end r /\ x_end r <= w /\ x_end r - x_start r <= ts) /\
  (0 <= y_start r < y_end r /\ y_end r <= h /\ y_end r - y_start r <= ts).
Proof.
  intros Hts Hr. unfold tile_rects in Hr.
  apply in_flat_map in Hr. destruct Hr as (ty & Hty & Hr).
  apply in_map_iff in Hr. destruct Hr as (tx & <- & Htx).
  apply in_py_range in Hty, Htx.
  rewrite tile_count_eq in Hty, Htx by assumption.
  assert (Hspan : forall n t, 0 <= t < (n - 1) / ts + 1 ->
            0 <= t * ts < Z.min (t * ts + ts) n /\
            Z.min (t * ts + ts) n <= n /\
            Z.min (t * ts + ts) n - t * ts <= ts).
  { intros n t Ht.
    pose proof (Z.mul_div_le (n - 1) ts Hts) as Hle.
    assert (t * ts <= (n - 1) / ts * ts) by nia.
    split; [split; [nia | lia] | lia]. }
  unfold tile_rect; cbn [x_start x_end y_start y_end].
  split; [apply (Hspan w tx Htx) | apply (Hspan h ty Hty)].
Qed.

Lemma tile_extents_witness :
  (0 <= 4 < 6 /\ 6 <= 6 /\ 6 - 4 <= 4) /\
  (0 <= 4 < 5 /\ 5 <= 5 /\ 5 - 4 <= 4).
Proof.
  apply (tile_extents 6 5 4 (mkRect 4 6 4 5)); [reflexivity|].
  vm_compute. tauto.
Defined.









Lemma mandelbrot_tile_cell_eq (c_real c_imag : grid float) (max_iter : Z) (i j : nat) :
  cell (mandelbrot_tile c_real c_imag max_iter) i j =
  option_map (fun cr => escape cr (imag_at c_imag i j) max_iter) (cell c_real i j).
Proof.
  unfold mandelbrot_tile.
  apply (cell_imap2 (fun i j cr => escape cr (imag_at c_imag i j) max_iter)).
Qed.

(** The count under a cap is the count under a higher cap, clamped. *)
Lemma escape_clamp (cr ci : float) (m m' : Z) :
  0 < m <= m' ->
  escape cr ci m = Z.min (escape cr ci m') (m - 1).
Proof.
  intros Hm.
  pose proof (escape_spec cr ci m) as H1.
  pose proof (escape_spec cr ci m') as H2.
  remember (escape cr ci m) as a eqn:Ha. remember (escape cr ci m') as b eqn:Hb.
  clear Ha Hb.
  destruct H1 as [k Hk He Hfirst | Hnone]; destruct H2 as [k' Hk' He' Hfirst' | Hnone'].
  - assert (k = k').
    { destruct (Nat.lt_trichotomy k k') as [Hlt | [Heq | Hgt]]; [|exact Heq|].
      - rewrite (Hfirst' k Hlt) in He. discriminate.
      - rewrite (Hfirst k' Hgt) in He'. discriminate. }
    subst k'. lia.
  - rewrite (Hnone' k) in He by lia. discriminate.
  - assert (m <= Z.of_nat k').
    { destruct (Z_lt_le_dec (Z.of_nat k') m) as [Hlt|Hge]; [|exact Hge].
      rewrite (Hnone k' Hlt) in He'. discriminate. }
    lia.
  - lia.
Qed.

(** X6.  Rendering the same grids under a lower iteration cap gives, cell by
    cell, the counts of the higher cap clamped to the lower cap's
    [max_iter - 1]: raising [max_iter] never lowers a count and leaves every
    count below [max_iter - 1] as it was. *)
Theorem lower_cap_clamps_counts
        (c_real c_imag : grid float) (m m' : Z) (i j : nat) (a b : Z) :
  0 < m <= m' ->
  cell (mandelbrot_tile c_real c_imag m) i j = Some a ->
  cell (mandelbrot_tile c_real c_imag m') i j = Some b ->
  a = Z.min b (m - 1).
Proof.
  intros Hm Ha Hb. rewrite mandelbrot_tile_cell_eq in Ha, Hb.
  destruct (cell c_real i j) as [cr|]; cbn [option_map] in Ha, Hb; [|discriminate].
  injection Ha as <-. injection Hb as <-.
  now apply escape_clamp.
Qed.

Lemma lower_cap_clamps_counts_witness : 7 = Z.min 15 (8 - 1).
Proof.
  apply (lower_cap_clamps_counts [[0.3%float]] [[0.6%float]] 8 256 0 0 7 15);
    [lia | vm_compute; reflexivity | vm_compute; reflexivity].
Defined.

(** ** The ASCII preview *)

Lemma py_str_index_chars (q : Z) :
  0 <= q <= 9 ->
  exists ch : Ascii.ascii,
    py_str_index chars q = Some ch /\ String.get (Z.to_nat q) chars = Some ch.
Proof.
  intros Hq.
  assert (Hcases : q = 0 \/ q = 1 \/ q = 2 \/ q = 3 \/ q = 4 \/
                   q = 5 \/ q = 6 \/ q = 7 \/ q = 8 \/ q = 9) by lia.
  repeat (destruct Hcases as [-> | Hcases]; [eexists; split; reflexivity|]).
  subst q. eexists; split; reflexivity.
Qed.

(** X7.  For every row of 8-bit pixels, the preview line is built without
    any index error: [pixel // 26] is a valid index into the ten-character
    palette for every pixel from 0 to 255.  The line has one character per
    pixel, and the character of a pixel is the palette entry of its band of
    26 intensities. *)
Theorem preview_line_of_bytes (row : list Z) :
  Forall (fun pixel => 0 <= pixel <= 255) row ->
  exists line : String.string,
    preview_line row = Some line /\
    String.length line = length row /\
    forall (n : nat) (pixel : Z),
      nth_error row n = Some pixel ->
      String.get n line = String.get (Z.to_nat (pixel / 26)) chars.
Proof.
  induction row as [|pixel row IH]; intros Hrow.
  - exists String.EmptyString. split; [reflexivity|]. split; [reflexivity|].
    intros [|n] p Hp; discriminate.
  - inversion Hrow as [|? ? Hp Hrest]; subst.
    destruct (IH Hrest) as (line & Hline & Hlen & Hget).
    assert (Hq : 0 <= pixel / 26 <= 9).
    { split; [apply Z.div_pos; lia|].
      assert (pixel / 26 < 10) by (apply Z.div_lt_upper_bound; lia). lia. }
    destruct (py_str_index_chars (pixel / 26) Hq) as (ch & Hch & Hch').
    exists (String.String ch line). cbn [preview_line].
    rewrite Hch, Hline. split; [reflexivity|].
    split; [cbn [String.length length]; now rewrite Hlen|].
    intros [|n] p Hnth; cbn [nth_error] in Hnth.
    + injection Hnth as <-. cbn [String.get]. now rewrite Hch'.
    + cbn [String.get]. now apply Hget.
Qed.

Lemma preview_line_of_bytes_witness :
  exists line : String.string,
    preview_line [0; 25; 26; 255] = Some line /\
    String.length line = length [0; 25; 26; 255] /\
    forall (n : nat) (pixel : Z),
      nth_error [0; 25; 26; 255] n = Some pixel ->
      String.get n line = String.get (Z.to_nat (pixel / 26)) chars.
Proof.
  apply (preview_line_of_bytes [0; 25; 26; 255]).
  repeat constructor; lia.
Defined.

(** ** The performance statistics *)

Lemma positive_is_not_zero (t : float) :
  (0 <? t)%float = true -> (t =? 0)%float = false.
Proof.
  rewrite ltb_spec, eqb_spec.
  change (Prim2SF 0) with (S754_zero false).
  destruct (Prim2SF t) as [s|s| |s m e]; cbn; try discriminate; try reflexivity.
  - destruct s; [discriminate | reflexivity].
  - destruct s; [discriminate | reflexivity].
Qed.

(** X8.  The speed statistic never divides by zero: for every configuration
    and every measured [render_time], zero, negative and NaN included, the
    two lines yield a value, which is [megapixels / render_time] when
    [render_time > 0] and 0 otherwise. *)
Theorem speed_statistic_never_raises (c : config) (render_time : float) :
  bind (megapixels c) (fun mp => pixels_per_sec mp render_time) =
  Ok (if (0 <? render_time)%float
      then (float_of_Z (width c * height c) / 1e6 / render_time)%float
      else 0%float).
Proof.
  unfold megapixels, py_truediv.
  change (1e6 =? 0)%float with false. cbn [bind].
  unfold pixels_per_sec, py_truediv.
  destruct (0 <? render_time)%float eqn:Ht; [|reflexivity].
  now rewrite (positive_is_not_zero render_time Ht).
Qed.

(** ** The image of a render *)

Lemma map2_shape {A B : Type} (f : A -> B) (g : grid A) :
  map (@length B) (map (map f) g) = map (@length A) g.
Proof.
  rewrite map_map. apply map_ext. intros row. apply length_map.
Qed.

Lemma cell_map2 {A B : Type} (f : A -> B) (g : grid A) (i j : nat) :
  cell (map (map f) g) i j = option_map f (cell g i j).
Proof.
  unfold cell. rewrite nth_error_map.
  destruct (nth_error g i) as [row|]; cbn [option_map]; [|reflexivity].
  apply nth_error_map.
Qed.

Lemma concat_map2_nil {A B : Type} (f : A -> B) (g : grid A) :
  concat (map (map f) g) = [] -> concat g = [].
Proof.
  rewrite <- concat_map. destruct (concat g); [reflexivity | discriminate].
Qed.

(** Post-processing a buffer that has a cell never raises and keeps the shape. *)
Lemma post_process_ok (np_log : float -> float) (buf : grid Z) :
  concat buf <> [] ->
  exists img : grid (option Z),
    post_process np_log buf = Ok img /\
    map (@length (option Z)) img = map (@length Z) buf.
Proof.
  intros Hne. unfold post_process, normalize, np_max, log_scale.
  destruct (concat (map (map (fun count => np_log (float_of_Z (count + 1)))) buf))
    as [|v vs] eqn:Hc.
  - apply concat_map2_nil in Hc. contradiction.
  - cbn [bind]. eexists. split; [reflexivity|].
    now rewrite !map2_shape.
Qed.

Lemma shape_not_empty {A : Type} (g : grid A) (h w : nat) :
  (0 < h)%nat -> (0 < w)%nat ->
  map (@length A) g = repeat w h -> concat g <> [].
Proof.
  intros Hh Hw Hs. destruct h as [|h]; [lia|].
  destruct g as [|row g]; [discriminate|].
  cbn in Hs. injection Hs as Hrow _.
  destruct row as [|a row]; [cbn in Hrow; lia | discriminate].
Qed.

(** X9.  For positive sizes, a non-zero [tile_size] and [max_iter - 1]
    within the range of the buffer's 32-bit cells, the whole pixel
    computation of the render returns: post-processing raises nothing on
    the non-empty buffer, and the image has exactly [height] rows of [width]
    pixels, for every log function and viewport. *)
Theorem render_returns_image (np_log : float -> float) (c : config) :
  0 < width c -> 0 < height c -> tile_size c <> 0 ->
  fits_int32 (max_iter c - 1) ->
  exists img : grid (option Z),
    render_mandelbrot_tiled np_log c = Ok img /\
    map (@length (option Z)) img = repeat (Z.to_nat (width c)) (Z.to_nat (height c)).
Proof.
  intros Hw Hh Hts _. unfold render_mandelbrot_tiled.
  rewrite (render_buffer_painted c Hw Hh Hts). cbn [bind].
  set (buf := paint c _ _).
  assert (Hshape : map (@length Z) buf =
                   repeat (Z.to_nat (width c)) (Z.to_nat (height c)))
    by (unfold buf; now rewrite paint_shape, np_zeros_shape).
  destruct (post_process_ok np_log buf) as (img & Himg & Hs).
  - apply (shape_not_empty buf (Z.to_nat (height c)) (Z.to_nat (width c)));
      [lia | lia | exact Hshape].
  - exists img. split; [exact Himg | now rewrite Hs].
Qed.

Lemma render_returns_image_witness :
  exists img : grid (option Z),
    render_mandelbrot_tiled np_log_sample (cardioid_config 2) = Ok img /\
    map (@length (option Z)) img = repeat (Z.to_nat 2) (Z.to_nat 2).
Proof.
  apply (render_returns_image np_log_sample (cardioid_config 2));
    [reflexivity | reflexivity | discriminate | unfold fits_int32; cbn; lia].
Defined.

Lemma fold_fmax_in (vs : list float) (v : float) :
  In (fold_left fmax vs v) (v :: vs).
Proof.
  revert v; induction vs as [|x vs IH]; intros v; cbn [fold_left].
  - now left.
  - destruct (IH (fmax v x)) as [Heq | Hin].
    + unfold fmax in Heq at 1.
      destruct (is_nan v); [left; exact Heq|].
      destruct (is_nan x); [right; left; exact Heq|].
      destruct (v <? x)%float; [right; left; exact Heq | left; exact Heq].
    + right; right; exact Hin.
Qed.

Lemma in_concat_cell {A : Type} (g : grid A) (a : A) :
  In a (concat g) -> exists i j : nat, cell g i j = Some a.
Proof.
  intros Hin. apply in_concat in Hin. destruct Hin as (row & Hrow & Ha).
  apply In_nth_error in Hrow. destruct Hrow as (i & Hi).
  apply In_nth_error in Ha. destruct Ha as (j & Hj).
  exists i, j. unfold cell. now rewrite Hi.
Qed.

(** X10.  Whenever the global maximum of the log-scaled buffer is a finite
    non-zero number, post-processing returns an image in which at least one
    pixel has the top intensity 255: the normalisation always maps the
    largest value of the buffer to white. *)
Theorem brightest_pixel_is_white
        (np_log : float -> float) (buf : grid Z)
        (top : float) (s : bool) (m : positive) (e : Z) :
  np_max (log_scale np_log buf) = Ok top ->
  Prim2SF top = S754_finite s m e ->
  exists (img : grid (option Z)) (i j : nat),
    post_process np_log buf = Ok img /\ cell img i j = Some (Some 255).
Proof.
  intros Hmax Htop.
  assert (Hin : exists i j, cell (log_scale np_log buf) i j = Some top).
  { unfold np_max in Hmax.
    destruct (concat (log_scale np_log buf)) as [|v vs] eqn:Hc; [discriminate|].
    injection Hmax as <-. apply in_concat_cell. rewrite Hc. apply fold_fmax_in. }
  destruct Hin as (i & j & Hcell).
  unfold post_process, normalize. rewrite Hmax. cbn [bind].
  eexists; exists i, j. split; [reflexivity|].
  rewrite !cell_map2, Hcell. cbn [option_map].
  rewrite (div_self_finite top s m e Htop). reflexivity.
Qed.

Lemma brightest_pixel_is_white_witness :
  exists (img : grid (option Z)) (i j : nat),
    post_process np_log_sample [[0; 1]; [1; 0]] = Ok img /\
    cell img i j = Some (Some 255).
Proof.
  eapply (brightest_pixel_is_white np_log_sample [[0; 1]; [1; 0]]);
    vm_compute; reflexivity.
Defined.

(** ** Coordinates that are not numbers *)

Lemma nan_add_l (x : float) : (nan + x)%float = nan.
Proof. apply Prim2SF_inj. rewrite add_spec. reflexivity. Qed.

Lemma nan_add_r (x : float) : (x + nan)%float = nan.
Proof.
  apply Prim2SF_inj. rewrite add_spec.
  change (Prim2SF nan) with S754_nan. now destruct (Prim2SF x).
Qed.

Lemma nan_sub_l (x : float) : (nan - x)%float = nan.
Proof. apply Prim2SF_inj. rewrite sub_spec. reflexivity. Qed.

Lemma nan_sub_r (x : float) : (x - nan)%float = nan.
Proof.
  apply Prim2SF_inj. rewrite sub_spec.
  change (Prim2SF nan) with S754_nan. now destruct (Prim2SF x).
Qed.

Lemma nan_mul_l (x : float) : (nan * x)%float = nan.
Proof. apply Prim2SF_inj. rewrite mul_spec. reflexivity. Qed.

Lemma nan_mul_r (x : float) : (x * nan)%float = nan.
Proof.
  apply Prim2SF_inj. rewrite mul_spec.
  change (Prim2SF nan) with S754_nan. now destruct (Prim2SF x).
Qed.

Lemma nan_not_above (x : float) : (x <? nan)%float = false.
Proof.
  rewrite ltb_spec. change (Prim2SF nan) with S754_nan.
  now destruct (Prim2SF x).
Qed.

(** Once a part of the orbit is NaN the loop runs to its [else] branch. *)
Lemma escape_loop_nan (n : nat) (k : Z) (zr zi cr ci : float) (max_iter : Z) :
  zr = nan \/ zi = nan ->
  escape_loop n k zr zi cr ci max_iter = max_iter - 1.
Proof.
  revert k zr zi. induction n as [|n IH]; intros k zr zi Hz; [reflexivity|].
  cbn [escape_loop].
  assert (Htest : (threshold <? zr * zr + zi * zi)%float = false).
  { destruct Hz as [-> | ->].
    - now rewrite nan_mul_l, nan_add_l, nan_not_above.
    - now rewrite nan_mul_l, nan_add_r, nan_not_above. }
  rewrite Htest. apply IH.
  destruct Hz as [-> | ->].
  - left. now rewrite nan_mul_l, nan_sub_l, nan_add_l.
  - right. now rewrite nan_mul_r, nan_add_l.
Qed.

(** X11.  A point whose real or imaginary coordinate is NaN is never judged
    divergent: for every positive [max_iter] its cell holds [max_iter - 1],
    the count of a point that stays bounded. *)
Theorem nan_point_counts_as_bounded
        (c_real c_imag : grid float) (max_iter : Z) (i j : nat) (cr ci : float) :
  0 < max_iter ->
  cell c_real i j = Some cr ->
  cell c_imag i j = Some ci ->
  cr = nan \/ ci = nan ->
  cell (mandelbrot_tile c_real c_imag max_iter) i j = Some (max_iter - 1).
Proof.
  intros Hm Hr Hi Hnan.
  rewrite (mandelbrot_tile_cell c_real c_imag max_iter i j cr ci Hr Hi).
  f_equal. unfold escape.
  destruct (Z.to_nat max_iter) as [|n] eqn:Hn; [lia|].
  cbn [escape_loop].
  change (threshold <? 0 * 0 + 0 * 0)%float with false. cbv iota.
  apply escape_loop_nan.
  destruct Hnan as [-> | ->].
  - left. apply nan_add_r.
  - right. apply nan_add_r.
Qed.

Lemma nan_point_counts_as_bounded_witness :
  cell (mandelbrot_tile [[nan]] [[5%float]] 256) 0 0 = Some (256 - 1).
Proof.
  apply (nan_point_counts_as_bounded [[nan]] [[5%float]] 256 0 0 nan 5%float);
    [reflexivity | reflexivity | reflexivity | left; reflexivity].
Defined.

(** ** The mirror symmetry of the kernel *)

Lemma binary_round_aux_opp (s : bool) (m e : Z) (l : location) :
  binary_round_aux prec emax (negb s) m e l =
  SFopp (binary_round_aux prec emax s m e l).
Proof.
  unfold binary_round_aux.
  destruct (shr_fexp prec emax m e l) as [mrs' e'].
  destruct (shr_fexp prec emax _ e' loc_Exact) as [mrs'' e''].
  destruct (shr_m mrs'') as [|p|p]; [reflexivity | | reflexivity].
  now destruct (e'' <=? emax - prec).
Qed.

Lemma binary_round_opp (s : bool) (m : positive) (e : Z) :
  binary_round prec emax (negb s) m e = SFopp (binary_round prec emax s m e).
Proof.
  unfold binary_round.
  destruct (shl_align m e _) as [mz ez]. apply binary_round_aux_opp.
Qed.

Lemma SFmul_opp_r (x y : spec_float) :
  SF64mul x (SFopp y) = SFopp (SF64mul x y).
Proof.
  unfold SF64mul.
  destruct x as [sx|sx| |sx mx ex], y as [sy|sy| |sy my ey]; cbn [SFmul SFopp];
    try reflexivity;
    try match goal with
        | |- binary_round_aux _ _ (xorb ?a (negb ?b)) _ _ _ = _ =>
            replace (xorb a (negb b)) with (negb (xorb a b)) by (now destruct a, b);
            apply binary_round_aux_opp
        end;
    repeat match goal with b : bool |- _ => destruct b end; reflexivity.
Qed.

Lemma mul_opp_r (x y : float) : (x * - y)%float = (- (x * y))%float.
Proof.
  apply Prim2SF_inj. rewrite opp_spec, !mul_spec, opp_spec. apply SFmul_opp_r.
Qed.

Lemma square_opp (x : float) : (- x * - x)%float = (x * x)%float.
Proof.
  apply Prim2SF_inj. rewrite !mul_spec, opp_spec. unfold SF64mul.
  destruct (Prim2SF x) as [s|s| |s m e]; cbn [SFmul SFopp]; try reflexivity;
    now destruct s.
Qed.

Lemma zero_times_zero (a : float) (s : bool) :
  Prim2SF a = S754_zero s -> (a * a)%float = 0%float.
Proof.
  intros Ha. apply Prim2SF_inj. rewrite mul_spec, Ha. now destruct s.
Qed.

Lemma mirrored_square (a b : float) : mirrored a b -> (b * b)%float = (a * a)%float.
Proof.
  intros [-> | (s & s' & Ha & Hb)]; [apply square_opp|].
  now rewrite (zero_times_zero a s Ha), (zero_times_zero b s' Hb).
Qed.

Lemma mirrored_mul (x a b : float) :
  mirrored a b -> mirrored (x * a) (x * b).
Proof.
  intros [-> | (s & s' & Ha & Hb)]; [left; apply mul_opp_r|].
  pose proof (mul_spec x a) as Hxa. pose proof (mul_spec x b) as Hxb.
  rewrite Ha in Hxa. rewrite Hb in Hxb. unfold SF64mul in Hxa, Hxb.
  destruct (Prim2SF x) as [sx|sx| |sx mx ex]; cbn [SFmul] in Hxa, Hxb.
  - right. eauto.
  - left. rewrite (Prim2SF_inj (x * a) nan Hxa), (Prim2SF_inj (x * b) nan Hxb).
    reflexivity.
  - left. rewrite (Prim2SF_inj (x * a) nan Hxa), (Prim2SF_inj (x * b) nan Hxb).
    reflexivity.
  - right. eauto.
Qed.

Lemma SFadd_opp_finite (sx sy : bool) (mx my : positive) (ex ey : Z) :
  SF64add (S754_finite (negb sx) mx ex) (S754_finite (negb sy) my ey) =
    SFopp (SF64add (S754_finite sx mx ex) (S754_finite sy my ey)) \/
  (exists s s' : bool,
      SF64add (S754_finite sx mx ex) (S754_finite sy my ey) = S754_zero s /\
      SF64add (S754_finite (negb sx) mx ex) (S754_finite (negb sy) my ey) =
        S754_zero s').
Proof.
  unfold SF64add; cbn [SFadd].
  set (ez := Z.min ex ey).
  set (a := Z.pos (fst (shl_align mx ex ez))).
  set (b := Z.pos (fst (shl_align my ey ez))).
  replace (cond_Zopp (negb sx) a + cond_Zopp (negb sy) b)
    with (- (cond_Zopp sx a + cond_Zopp sy b))
    by (destruct sx, sy; cbn [cond_Zopp negb]; lia).
  destruct (cond_Zopp sx a + cond_Zopp sy b) as [|p|p]; cbn [Z.opp binary_normalize].
  - right. eauto.
  - left. apply (binary_round_opp false).
  - left. apply (binary_round_opp true).
Qed.

Lemma SFadd_opp (x y : spec_float) :
  SF64add (SFopp x) (SFopp y) = SFopp (SF64add x y) \/
  (exists s s' : bool,
      SF64add x y = S754_zero s /\ SF64add (SFopp x) (SFopp y) = S754_zero s').
Proof.
  destruct x as [sx|sx| |sx mx ex], y as [sy|sy| |sy my ey]; cbn [SFopp];
    try apply SFadd_opp_finite;
    unfold SF64add; cbn [SFadd];
    repeat match goal with b : bool |- _ => destruct b end;
    cbn [negb]; (left; reflexivity) || (right; eauto).
Qed.

Lemma mirrored_add (p p' c : float) :
  mirrored p p' -> mirrored (p + c) (p' + - c).
Proof.
  intros [-> | (s & s' & Hp & Hp')].
  - destruct (SFadd_opp (Prim2SF p) (Prim2SF c)) as [Heq | (s & s' & H1 & H2)].
    + left. apply Prim2SF_inj. now rewrite opp_spec, !add_spec, !opp_spec.
    + right. exists s, s'. now rewrite !add_spec, !opp_spec.
  - pose proof (add_spec p c) as H1. pose proof (add_spec p' (- c)) as H2.
    rewrite opp_spec in H2. rewrite Hp in H1. rewrite Hp' in H2.
    unfold SF64add in H1, H2.
    destruct (Prim2SF c) as [sc|sc| |sc mc ec] eqn:Hc; cbn [SFadd SFopp] in H1, H2.
    + right.
      destruct s, sc; destruct s'; cbn in H1, H2; eauto.
    + left. apply Prim2SF_inj. now rewrite opp_spec, H1, H2.
    + left. apply Prim2SF_inj. now rewrite opp_spec, H1, H2.
    + left. apply Prim2SF_inj. now rewrite opp_spec, H1, H2.
Qed.

Lemma escape_loop_mirror (n : nat) (k : Z) (zr zi zi' cr ci : float) (max_iter : Z) :
  mirrored zi zi' ->
  escape_loop n k zr zi' cr (- ci) max_iter = escape_loop n k zr zi cr ci max_iter.
Proof.
  revert k zr zi zi'. induction n as [|n IH]; intros k zr zi zi' Hz; [reflexivity|].
  cbn [escape_loop]. rewrite (mirrored_square zi zi' Hz).
  destruct (threshold <? zr * zr + zi * zi)%float; [reflexivity|].
  apply IH. apply mirrored_add. now apply mirrored_mul.
Qed.

Lemma escape_conjugate (cr ci : float) (max_iter : Z) :
  escape cr (- ci) max_iter = escape cr ci max_iter.
Proof.
  unfold escape. apply escape_loop_mirror.
  right. exists false, false. split; reflexivity.
Qed.

(** X12.  The kernel is symmetric about the real axis, exactly and in
    binary64: negating every imaginary coordinate of the input leaves every
    count unchanged, for all grids and every [max_iter]. *)
Theorem mirror_symmetry (c_real c_imag : grid float) (max_iter : Z) :
  mandelbrot_tile c_real (map (map PrimFloat.opp) c_imag) max_iter =
  mandelbrot_tile c_real c_imag max_iter.
Proof.
  unfold mandelbrot_tile.
  apply imap_ext. intros i row _. apply imap_ext. intros j cr _.
  rewrite cell_map2.
  destruct (cell c_imag i j) as [ci|]; cbn [option_map]; [|reflexivity].
  apply escape_conjugate.
Qed.

(** ** Counts and the disc of radius 2 *)

Lemma escape_one_iff (cr ci : float) (max_iter : Z) :
  3 <= max_iter ->
  escape cr ci max_iter = 1 <-> (threshold <? cr * cr + ci * ci)%float = true.
Proof.
  intros Hm. split.
  - intros H1. pose proof (escape_spec cr ci max_iter) as Hs.
    rewrite H1 in Hs. rewrite <- escaped_after_one_step.
    inversion Hs as [k Hk He Hfirst Heq | Hnone Heq]; [|lia].
    now replace k with 1%nat in He by lia.
  - intros Hc. apply escape_outside_disc; [exact Hc | lia].
Qed.

(** X13.  For every [max_iter >= 3] a cell holds the count 1 exactly when
    its point satisfies [cr*cr + ci*ci > 4.0] in binary64: the count-1 cells
    of a render are the pixels outside the disc of radius 2, and no others. *)
Theorem count_one_marks_outside_disc
        (c_real c_imag : grid float) (max_iter : Z) (i j : nat) (cr ci : float) :
  3 <= max_iter ->
  cell c_real i j = Some cr ->
  cell c_imag i j = Some ci ->
  cell (mandelbrot_tile c_real c_imag max_iter) i j = Some 1 <->
  (threshold <? cr * cr + ci * ci)%float = true.
Proof.
  intros Hm Hr Hi.
  rewrite (mandelbrot_tile_cell c_real c_imag max_iter i j cr ci Hr Hi).
  rewrite <- (escape_one_iff cr ci max_iter Hm).
  split; [now intros [= ->] | now intros ->].
Qed.

Lemma count_one_marks_outside_disc_witness :
  cell (mandelbrot_tile [[5%float]] [[5%float]] 256) 0 0 = Some 1 <->
  (threshold <? 5 * 5 + 5 * 5)%float = true.
Proof.
  apply (count_one_marks_outside_disc [[5%float]] [[5%float]] 256 0 0);
    [lia | reflexivity | reflexivity].
Defined.

(** ** Renders on arguments out of their range *)

Lemma tile_rect_empty (w h ts tx ty x y : Z) :
  ts < 0 -> in_rect (tile_rect w h ts tx ty) x y = false.
Proof.
  intros Hts. rewrite in_rect_tile. unfold in_span.
  destruct (tx * ts <=? x) eqn:H1; [|reflexivity].
  destruct (x <? Z.min (tx * ts + ts) w) eqn:H2; [|reflexivity].
  apply Z.leb_le in H1. apply Z.ltb_lt in H2. lia.
Qed.

Lemma covered_nothing (w h ts : Z) (i j : nat) :
  ts < 0 -> covered (tile_rects w h ts) i j = false.
Proof.
  intros Hts. unfold covered.
  destruct (existsb _ _) eqn:He; [|reflexivity].
  apply existsb_exists in He. destruct He as (r & Hr & Hin).
  unfold tile_rects in Hr. apply in_flat_map in Hr. destruct Hr as (ty & _ & Hr).
  apply in_map_iff in Hr. destruct Hr as (tx & <- & _).
  now rewrite tile_rect_empty in Hin.
Qed.

(** X14.  A negative [tile_size] is not refused and nothing is rendered:
    with positive sizes the tile loops leave every cell of the buffer at
    its initial 0, whatever the viewport and [max_iter] are. *)
Theorem negative_tile_size_renders_nothing (c : config) :
  0 < width c -> 0 < height c -> tile_size c < 0 ->
  render_buffer c = Ok (np_zeros (height c) (width c)).
Proof.
  intros Hw Hh Hts.
  rewrite render_buffer_painted by lia. f_equal.
  rewrite <- (paint_nothing c (np_zeros (height c) (width c))) at 2.
  apply paint_ext. intros i j. now apply covered_nothing.
Qed.

Lemma negative_tile_size_renders_nothing_witness :
  render_buffer (inverted_config 4 (-1)) = Ok (np_zeros 2 2).
Proof.
  apply (negative_tile_size_renders_nothing (inverted_config 4 (-1))); reflexivity.
Defined.

Lemma escape_no_iteration (cr ci : float) (max_iter : Z) :
  max_iter <= 0 -> escape cr ci max_iter = max_iter - 1.
Proof.
  intros Hm. unfold escape.
  now replace (Z.to_nat max_iter) with 0%nat by lia.
Qed.

(** X15.  A non-positive [max_iter] is not refused either: with positive
    sizes and a positive [tile_size] the escape loop never runs and every
    cell of the buffer holds [max_iter - 1], a negative count. *)
Theorem no_iteration_render (c : config) (buf : grid Z) :
  0 < tile_size c -> max_iter c <= 0 ->
  render_buffer c = Ok buf ->
  all_cells (fun count => count = max_iter c - 1 /\ count < 0) buf.
Proof.
  intros Hts Hm Hbuf.
  destruct (render_buffer_ok c buf Hbuf) as (Hw & Hh & _).
  rewrite (render_buffer_pixels c Hw Hh Hts) in Hbuf. injection Hbuf as <-.
  intros i j v Hv. unfold pixel_grid, cell in Hv.
  rewrite nth_error_map in Hv.
  destruct (nth_error (py_range (height c)) i) as [y|]; cbn [option_map] in Hv;
    [|discriminate].
  rewrite nth_error_map in Hv.
  destruct (nth_error (py_range (width c)) j) as [x|]; cbn [option_map] in Hv;
    [|discriminate].
  injection Hv as <-. unfold pixel_count.
  rewrite escape_no_iteration by assumption. lia.
Qed.

Lemma no_iteration_render_witness :
  all_cells (fun count => count = 0 - 1 /\ count < 0) [[-1; -1]; [-1; -1]].
Proof.
  apply (no_iteration_render (inverted_config 0 1));
    [reflexivity | discriminate | vm_compute; reflexivity].
Defined.

Lemma pixel_grid_single_iteration (c : config) :
  max_iter c = 1 -> pixel_grid c = np_zeros (height c) (width c).
Proof.
  intros Hm. unfold pixel_grid, np_zeros.
  rewrite (map_ext _ (fun _ => repeat 0 (Z.to_nat (width c)))).
  - rewrite map_const. f_equal. unfold py_range. now rewrite length_map, length_seq.
  - intros y.
    rewrite (map_ext _ (fun _ => 0)).
    + rewrite map_const. f_equal. unfold py_range. now rewrite length_map, length_seq.
    + intros x. unfold pixel_count. rewrite Hm. apply escape_one_iteration.
Qed.

(** X16.  Whenever no tile writes a count above 0, that is for [max_iter = 1]
    with a positive [tile_size] and for every negative [tile_size], the
    normalisation divides 0 by 0: with [log(1.0)] a zero, every normalised
    value of the image is NaN.  Nothing guards the division against a zero
    maximum. *)
Theorem degenerate_render_is_nan
        (np_log : float -> float) (c : config) (s : bool) :
  0 < width c -> 0 < height c ->
  tile_size c < 0 \/ (0 < tile_size c /\ max_iter c = 1) ->
  Prim2SF (np_log 1%float) = S754_zero s ->
  bind (render_buffer c) (fun buf => normalize (log_scale np_log buf)) =
  Ok (uniform (Z.to_nat (height c)) (Z.to_nat (width c)) nan).
Proof.
  intros Hw Hh Hcase Hlog.
  assert (Hbuf : render_buffer c = Ok (np_zeros (height c) (width c))).
  { destruct Hcase as [Hneg | [Hpos Hm]].
    - rewrite render_buffer_painted by lia. f_equal.
      rewrite <- (paint_nothing c (np_zeros (height c) (width c))) at 2.
      apply paint_ext. intros i j. now apply covered_nothing.
    - rewrite render_buffer_pixels by assumption.
      now rewrite pixel_grid_single_iteration. }
  rewrite Hbuf. cbn [bind].
  apply (all_zero_buffer_divides_by_zero np_log
           (Z.to_nat (height c)) (Z.to_nat (width c)) s); [lia | lia | exact Hlog].
Qed.

Lemma degenerate_render_is_nan_witness :
  bind (render_buffer (cardioid_config 1))
       (fun buf => normalize (log_scale np_log_sample buf)) =
  Ok (uniform (Z.to_nat 2) (Z.to_nat 2) nan).
Proof.
  apply (degenerate_render_is_nan np_log_sample (cardioid_config 1) false);
    [reflexivity | reflexivity | right; split; reflexivity | reflexivity].
Defined.

(** ** Post-processing keeps the order of the counts *)

(** ** Binary64 digits *)

Lemma digits2_pos_size (p : positive) : digits2_pos p = Pos.size p.
Proof. induction p as [p IH|p IH|]; cbn; now rewrite ?IH. Qed.

Lemma digits_pos_bounds (p : positive) :
  2 ^ (Z.pos (digits2_pos p) - 1) <= Z.pos p < 2 ^ Z.pos (digits2_pos p).
Proof.
  rewrite digits2_pos_size.
  pose proof (Pos.size_gt p) as Hgt. pose proof (Pos.size_le p) as Hle.
  apply Pos2Z.pos_lt_pos in Hgt. apply Pos2Z.pos_le_pos in Hle.
  rewrite Pos2Z.inj_pow in Hgt, Hle.
  change (Z.pos p~0) with (2 * Z.pos p) in Hle.
  split; [|exact Hgt].
  replace (Z.pos (Pos.size p)) with (Z.pos (Pos.size p) - 1 + 1) in Hle by lia.
  rewrite Z.pow_add_r, Z.pow_1_r in Hle by lia. lia.
Qed.

(** [Zdigits2 m] for a non-negative [m]: 0 for 0, else the bit length. *)
Lemma Zdigits2_nonneg (m : Z) : 0 <= m -> 0 <= Zdigits2 m.
Proof. destruct m; cbn; lia. Qed.

Lemma Zdigits2_upper (m : Z) : 0 <= m -> m < 2 ^ Zdigits2 m.
Proof.
  destruct m as [|p|p]; intros Hm; cbn [Zdigits2]; [cbn; lia | | lia].
  apply digits_pos_bounds.
Qed.

Lemma Zdigits2_lower (m : Z) : 0 < m -> 2 ^ (Zdigits2 m - 1) <= m.
Proof.
  destruct m as [|p|p]; intros Hm; cbn [Zdigits2]; [lia | | lia].
  apply digits_pos_bounds.
Qed.

(** ** Powers of two *)

Lemma pow2_pos (n : Z) : 0 <= n -> 0 < 2 ^ n.
Proof. intros; apply Z.pow_pos_nonneg; lia. Qed.

Lemma pow2_le (a b : Z) : 0 <= a <= b -> 2 ^ a <= 2 ^ b.
Proof. intros; apply Z.pow_le_mono_r; lia. Qed.

Lemma pow2_split (a b : Z) : 0 <= a -> 0 <= b -> 2 ^ (a + b) = 2 ^ a * 2 ^ b.
Proof. intros; apply Z.pow_add_r; lia. Qed.

(** ** Shifting right with round and sticky bits *)

Lemma rec_of_loc_ok (m : Z) (l : location) (a b : Z) :
  loc_ok m l a b -> rec_ok (shr_record_of_loc m l) a b.
Proof.
  unfold rec_ok. destruct l as [|[| |]]; cbn; auto.
Qed.

Lemma shr_1_ok (mrs : shr_record) (a b : Z) :
  rec_ok mrs a b -> rec_ok (shr_1 mrs) a (2 * b).
Proof.
  destruct mrs as [m r s]. unfold rec_ok, loc_ok; cbn [shr_m].
  intros (Hb & Hm & Hab & Hl).
  assert (Hex : (r || s = false /\ a = m * b) \/ (r || s = true /\ a <> m * b)).
  { destruct r, s; cbn [loc_of_shr_record orb] in Hl |- *;
      [right|right|right|left]; (split; [reflexivity | lia]). }
  clear Hl.
  destruct m as [|p|p]; [| |lia].
  - cbn [shr_1 shr_m loc_of_shr_record].
    destruct Hex as [[-> ->] | [-> Hne]]; cbn [loc_of_shr_record]; lia.
  - destruct p as [p|p|]; cbn [shr_1 shr_m loc_of_shr_record].
    + change (Z.pos p~1) with (2 * Z.pos p + 1) in *.
      destruct Hex as [[-> ->] | [-> Hne]]; cbn [loc_of_shr_record]; nia.
    + change (Z.pos p~0) with (2 * Z.pos p) in *.
      destruct Hex as [[-> ->] | [-> Hne]]; cbn [loc_of_shr_record]; nia.
    + destruct Hex as [[-> ->] | [-> Hne]]; cbn [loc_of_shr_record]; nia.
Qed.

Lemma iter_shr_ok (p : positive) (mrs : shr_record) (a b : Z) :
  rec_ok mrs a b -> rec_ok (iter_pos shr_1 p mrs) a (2 ^ Z.pos p * b).
Proof.
  revert mrs b. induction p as [p IH|p IH|]; intros mrs b H; cbn [iter_pos].
  - apply shr_1_ok in H. apply IH in H. apply IH in H.
    replace (2 ^ Z.pos p~1 * b) with (2 ^ Z.pos p * (2 ^ Z.pos p * (2 * b))); [exact H|].
    change (Z.pos p~1) with (2 * Z.pos p + 1).
    rewrite Z.pow_add_r, Z.pow_1_r by lia.
    replace (2 * Z.pos p) with (Z.pos p + Z.pos p) by lia.
    rewrite Z.pow_add_r by lia. ring.
  - apply IH in H. apply IH in H.
    replace (2 ^ Z.pos p~0 * b) with (2 ^ Z.pos p * (2 ^ Z.pos p * b)); [exact H|].
    change (Z.pos p~0) with (2 * Z.pos p).
    replace (2 * Z.pos p) with (Z.pos p + Z.pos p) by lia.
    rewrite Z.pow_add_r by lia. ring.
  - apply shr_1_ok in H. now rewrite Z.pow_1_r.
Qed.

(** [shr] by a non-negative amount [n]. *)
Lemma shr_ok (mrs : shr_record) (e n a b : Z) :
  0 <= n -> rec_ok mrs a b ->
  rec_ok (fst (shr mrs e n)) a (2 ^ n * b) /\ snd (shr mrs e n) = e + n.
Proof.
  intros Hn H. destruct n as [|p|p]; cbn [shr fst snd]; [| |lia].
  - split; [|lia]. now rewrite Z.pow_0_r, Z.mul_1_l.
  - split; [|reflexivity]. now apply iter_shr_ok.
Qed.

(** ** The value [binary_round_aux] returns *)

Lemma round_near (m : Z) (l : location) (a B : Z) :
  loc_ok m l a B ->
  near (round_nearest_even m l) a B /\
  m <= round_nearest_even m l <= m + 1.
Proof.
  unfold loc_ok, near. intros (HB & Hm & Hab & Hl).
  destruct l as [|[| |]]; cbn [round_nearest_even].
  - split; [|lia]. split; [lia|]. intros [H|H]; lia.
  - destruct (Z.even m) eqn:He.
    + split; [|lia]. split; [lia|]. intros _; exact He.
    + split; [|lia]. split; [lia|]. intros _.
      rewrite Z.even_add, He. reflexivity.
  - split; [|lia]. split; [lia|]. intros [H|H]; lia.
  - split; [|lia]. split; [lia|]. intros [H|H]; lia.
Qed.

Lemma Zdigits2_small (N : Z) : 0 <= N < 2 ^ 53 -> Zdigits2 N <= 53.
Proof.
  intros [H0 H1]. destruct (Z.eq_dec N 0) as [->|Hne]; [cbn; lia|].
  pose proof (Zdigits2_lower N ltac:(lia)) as Hl.
  pose proof (Zdigits2_nonneg N H0) as Hd.
  destruct (Z_le_gt_dec (Zdigits2 N) 53) as [Hle|Hgt]; [exact Hle|].
  assert (2 ^ 53 <= 2 ^ (Zdigits2 N - 1)) by (apply pow2_le; lia). lia.
Qed.

Lemma fexp_eq (e : Z) : fexp prec emax e = Z.max (e - prec) emin.
Proof. reflexivity. Qed.

Lemma bra_value (mx ex : Z) (lx : location) (a b : Z) :
  loc_ok mx lx a b ->
  ex <= fexp prec emax (Zdigits2 mx + ex) ->
  fexp prec emax (Zdigits2 mx + ex) + 1 <= emax - prec ->
  exists N : Z,
    near N a (2 ^ (fexp prec emax (Zdigits2 mx + ex) - ex) * b) /\
    0 <= N <= 2 ^ 53 /\
    (emin < fexp prec emax (Zdigits2 mx + ex) -> 2 ^ 52 <= N) /\
    ((N = 0 /\ binary_round_aux prec emax false mx ex lx = S754_zero false) \/
     (exists (m : positive) (e : Z),
         binary_round_aux prec emax false mx ex lx = S754_finite false m e /\
         fexp prec emax (Zdigits2 mx + ex) <= e /\
         Z.pos m * 2 ^ (e - fexp prec emax (Zdigits2 mx + ex)) = N)).
Proof.
  intros Hloc Hn Hfin.
  set (K := fexp prec emax (Zdigits2 mx + ex)) in *.
  assert (HK : K = Z.max (Zdigits2 mx + ex - prec) emin) by reflexivity.
  pose proof Hloc as (Hb & Hmx & Hab & _).
  pose proof (Zdigits2_nonneg mx Hmx) as Hd.
  pose proof (Zdigits2_upper mx Hmx) as Hup.
  unfold binary_round_aux, shr_fexp. fold K.
  pose proof (shr_ok (shr_record_of_loc mx lx) ex (K - ex) a b ltac:(lia)
                     (rec_of_loc_ok mx lx a b Hloc)) as [Hrec He'].
  destruct (shr (shr_record_of_loc mx lx) ex (K - ex)) as [mrs' e'].
  cbn [fst snd] in Hrec, He'. replace (ex + (K - ex)) with K in He' by lia. subst e'.
  set (n := K - ex) in *. set (B := 2 ^ n * b) in *.
  assert (Hpn : 0 < 2 ^ n) by (apply pow2_pos; lia).
  assert (HB : 0 < B) by (unfold B; nia).
  destruct (round_near (shr_m mrs') (loc_of_shr_record mrs') a B Hrec) as [Hnear HN].
  set (N := round_nearest_even (shr_m mrs') (loc_of_shr_record mrs')) in *.
  pose proof Hrec as (_ & Hm1 & Hm1ab & _).
  set (m1 := shr_m mrs') in *.
  (* m1 < 2^53 *)
  assert (Hm1up : m1 < 2 ^ 53).
  { assert (2 ^ Zdigits2 mx <= 2 ^ (n + 53)) by (apply pow2_le; unfold prec in HK; lia).
    rewrite pow2_split in H by lia.
    assert (m1 * B < 2 ^ 53 * B) by (unfold B in *; nia).
    nia. }
  (* lower bound when K > emin *)
  assert (Hm1lo : emin < K -> 2 ^ 52 <= m1).
  { intros Hgt.
    assert (Hn53 : n = Zdigits2 mx - 53) by (unfold prec in HK; lia).
    assert (Hmxpos : 0 < mx) by (destruct mx; cbn in Hd, Hn53; lia).
    pose proof (Zdigits2_lower mx Hmxpos) as Hlo.
    replace (Zdigits2 mx - 1) with (n + 52) in Hlo by lia.
    rewrite pow2_split in Hlo by lia.
    assert (2 ^ 52 * B < (m1 + 1) * B) by (unfold B in *; nia).
    nia. }
  exists N. split; [exact Hnear|]. split; [lia|]. split; [intros H; specialize (Hm1lo H); lia|].
  destruct (Z.eq_dec N (2 ^ 53)) as [HN53 | HN53].
  - (* carry *)
    right. rewrite HN53.
    replace (fexp prec emax (Zdigits2 (2 ^ 53) + K) - K) with 1.
    2:{ rewrite fexp_eq. change (Zdigits2 (2 ^ 53)) with 54.
        unfold prec, emin, emax in *. lia. }
    cbn [shr shr_record_of_loc iter_pos shr_1 fst snd shr_m Z.pow Z.pow_pos Pos.iter Z.mul Pos.mul].
    assert (Hle : (K + 1 <=? emax - prec) = true) by (apply Z.leb_le; lia).
    rewrite Hle. eexists _, _. split; [reflexivity|]. split; [lia|].
    replace (K + 1 - K) with 1 by lia. reflexivity.
  - assert (HNlt : 0 <= N < 2 ^ 53) by lia.
    pose proof (Zdigits2_small N HNlt) as HdN.
    assert (Hn2 : fexp prec emax (Zdigits2 N + K) - K <= 0).
    { rewrite fexp_eq. unfold prec, emin, emax in *. lia. }
    assert (Hshr : shr (shr_record_of_loc N loc_Exact) K
                       (fexp prec emax (Zdigits2 N + K) - K) =
                   (shr_record_of_loc N loc_Exact, K)).
    { destruct (fexp prec emax (Zdigits2 N + K) - K); [reflexivity | lia | reflexivity]. }
    rewrite Hshr. cbn [shr_record_of_loc shr_m].
    destruct N as [|p|p] eqn:HNeq; [left; split; reflexivity | | lia].
    right. assert (Hle : (K <=? emax - prec) = true) by (apply Z.leb_le; lia).
    rewrite Hle. exists p, K. split; [reflexivity|]. split; [lia|].
    rewrite Z.sub_diag. cbn. lia.
Qed.

(** ** Ordering non-negative floats by their keys *)

Lemma valid_finite (m : positive) (e : Z) :
  valid_binary (S754_finite false m e) = true ->
  emin <= e <= emax - prec /\
  Z.pos (digits2_pos m) <= 53 /\
  (emin < e -> Z.pos (digits2_pos m) = 53).
Proof.
  cbn [FloatAxioms.valid_binary SpecFloat.valid_binary]. unfold bounded, canonical_mantissa.
  intros H. apply andb_prop in H. destruct H as [Hc He].
  apply Z.eqb_eq in Hc. apply Z.leb_le in He.
  rewrite fexp_eq in Hc. unfold prec, emin, emax in *. lia.
Qed.

Lemma finite_key_bounds (m : positive) (e : Z) :
  valid_binary (S754_finite false m e) = true ->
  0 < Z.pos m * 2 ^ (e - emin) < 2 ^ 53 * 2 ^ (e - emin) /\
  (emin < e -> 2 ^ 52 * 2 ^ (e - emin) <= Z.pos m * 2 ^ (e - emin)).
Proof.
  intros Hv. destruct (valid_finite m e Hv) as (He & Hd & Hn).
  pose proof (digits_pos_bounds m) as [Hlo Hup].
  assert (Hp : 0 < 2 ^ (e - emin)) by (apply pow2_pos; lia).
  assert (Hm53 : Z.pos m < 2 ^ 53).
  { assert (2 ^ Z.pos (digits2_pos m) <= 2 ^ 53) by (apply pow2_le; lia). lia. }
  split; [nia|].
  intros Hgt. rewrite (Hn Hgt) in Hlo. change (53 - 1) with 52 in Hlo. nia.
Qed.

Lemma key_exp_lt (m1 m2 : positive) (e1 e2 : Z) :
  valid_binary (S754_finite false m1 e1) = true ->
  valid_binary (S754_finite false m2 e2) = true ->
  e1 < e2 ->
  Z.pos m1 * 2 ^ (e1 - emin) < Z.pos m2 * 2 ^ (e2 - emin).
Proof.
  intros H1 H2 Hlt.
  destruct (valid_finite m1 e1 H1) as (He1 & _ & _).
  destruct (finite_key_bounds m1 e1 H1) as [[_ Hup] _].
  destruct (finite_key_bounds m2 e2 H2) as [_ Hlo].
  specialize (Hlo ltac:(lia)).
  assert (Hstep : 2 ^ 53 * 2 ^ (e1 - emin) <= 2 ^ 52 * 2 ^ (e2 - emin)).
  { replace (e2 - emin) with ((e1 - emin) + 1 + (e2 - e1 - 1)) by lia.
    rewrite !pow2_split by lia.
    assert (0 < 2 ^ (e1 - emin)) by (apply pow2_pos; lia).
    assert (1 <= 2 ^ (e2 - e1 - 1)) by (pose proof (pow2_pos (e2 - e1 - 1)); lia).
    change (2 ^ 53) with (2 ^ 52 * 2). change (2 ^ 1) with 2. nia. }
  lia.
Qed.

Lemma pos_compare_cont_Eq (a b : positive) :
  Pos.compare_cont Eq a b = (Z.pos a ?= Z.pos b).
Proof. reflexivity. Qed.

Lemma finite_leb_key (m1 m2 : positive) (e1 e2 : Z) :
  valid_binary (S754_finite false m1 e1) = true ->
  valid_binary (S754_finite false m2 e2) = true ->
  SFleb (S754_finite false m1 e1) (S754_finite false m2 e2) = true <->
  Z.pos m1 * 2 ^ (e1 - emin) <= Z.pos m2 * 2 ^ (e2 - emin).
Proof.
  intros H1 H2. unfold SFleb, SFcompare.
  destruct (valid_finite m1 e1 H1) as (He1 & _ & _).
  assert (Hp : 0 < 2 ^ (e1 - emin)) by (apply pow2_pos; lia).
  destruct (Z.compare_spec e1 e2) as [Heq | Hlt | Hgt].
  - subst e2. rewrite pos_compare_cont_Eq.
    destruct (Z.compare_spec (Z.pos m1) (Z.pos m2)) as [E | L | G].
    + rewrite E. split; [lia | reflexivity].
    + split; [nia | reflexivity].
    + split; [discriminate | intros; nia].
  - pose proof (key_exp_lt m1 m2 e1 e2 H1 H2 Hlt). split; [lia | reflexivity].
  - pose proof (key_exp_lt m2 m1 e2 e1 H2 H1 Hgt). split; [discriminate | lia].
Qed.

Lemma leb_key (x y : spec_float) :
  valid_binary x = true -> valid_binary y = true ->
  fin_nonneg x -> fin_nonneg y ->
  (SFleb x y = true <-> key x <= key y).
Proof.
  intros Hx Hy Nx Ny.
  destruct x as [s|s| |[|] m e]; try contradiction;
  destruct y as [s'|s'| |[|] m' e']; try contradiction.
  - unfold SFleb, SFcompare, key. split; [lia | reflexivity].
  - destruct (finite_key_bounds m' e' Hy) as [[Hp _] _].
    unfold SFleb, SFcompare, key. split; [lia | reflexivity].
  - destruct (finite_key_bounds m e Hx) as [[Hp _] _].
    unfold SFleb, SFcompare, key. split; [discriminate | lia].
  - unfold key. now apply finite_leb_key.
Qed.

Lemma finite_ltb_key (m1 m2 : positive) (e1 e2 : Z) :
  valid_binary (S754_finite false m1 e1) = true ->
  valid_binary (S754_finite false m2 e2) = true ->
  SFltb (S754_finite false m1 e1) (S754_finite false m2 e2) = true <->
  Z.pos m1 * 2 ^ (e1 - emin) < Z.pos m2 * 2 ^ (e2 - emin).
Proof.
  intros H1 H2. unfold SFltb, SFcompare.
  destruct (valid_finite m1 e1 H1) as (He1 & _ & _).
  assert (Hp : 0 < 2 ^ (e1 - emin)) by (apply pow2_pos; lia).
  destruct (Z.compare_spec e1 e2) as [Heq | Hlt | Hgt].
  - subst e2. rewrite pos_compare_cont_Eq.
    destruct (Z.compare_spec (Z.pos m1) (Z.pos m2)) as [E | L | G].
    + rewrite E. split; [discriminate | lia].
    + split; [nia | reflexivity].
    + split; [discriminate | intros; nia].
  - pose proof (key_exp_lt m1 m2 e1 e2 H1 H2 Hlt). split; [lia | reflexivity].
  - pose proof (key_exp_lt m2 m1 e2 e1 H2 H1 Hgt). split; [discriminate | lia].
Qed.

Lemma ltb_key (x y : spec_float) :
  valid_binary x = true -> valid_binary y = true ->
  fin_nonneg x -> fin_nonneg y ->
  (SFltb x y = true <-> key x < key y).
Proof.
  intros Hx Hy Nx Ny.
  destruct x as [s|s| |[|] m e]; try contradiction;
  destruct y as [s'|s'| |[|] m' e']; try contradiction.
  - unfold SFltb, SFcompare, key. split; [discriminate | lia].
  - destruct (finite_key_bounds m' e' Hy) as [[Hp _] _].
    unfold SFltb, SFcompare, key. split; [lia | reflexivity].
  - destruct (finite_key_bounds m e Hx) as [[Hp _] _].
    unfold SFltb, SFcompare, key. split; [discriminate | lia].
  - unfold key. now apply finite_ltb_key.
Qed.

(** ** Rounding to nearest is monotone *)

Lemma near_scale (N a B c : Z) :
  0 < c -> near N a B -> near N (a * c) (B * c).
Proof.
  intros Hc [Hb Ht]. unfold near.
  replace (2 * (N * (B * c) - a * c)) with (c * (2 * (N * B - a))) by ring.
  split; [nia|].
  intros Htie. apply Ht.
  destruct Htie as [E | E]; [left | right]; nia.
Qed.

Lemma near_mono (N N' A A' U : Z) :
  0 < U -> near N A U -> near N' A' U -> A <= A' -> N <= N'.
Proof.
  intros HU [Hb Ht] [Hb' Ht'] HA.
  destruct (Z_le_gt_dec N N') as [|Hgt]; [assumption | exfalso].
  assert (HP : N * U >= N' * U + U) by nia.
  assert (E1 : 2 * (N * U - A) = U) by lia.
  assert (E2 : 2 * (N' * U - A') = - U) by lia.
  assert (HN : N = N' + 1) by nia.
  specialize (Ht (or_introl E1)). specialize (Ht' (or_intror E2)).
  subst N. rewrite Z.even_add in Ht. rewrite Ht' in Ht. discriminate.
Qed.

Lemma bra_key (mx ex : Z) (lx : location) (a b : Z) :
  loc_ok mx lx a b ->
  ex <= fexp prec emax (Zdigits2 mx + ex) ->
  fexp prec emax (Zdigits2 mx + ex) + 1 <= emax - prec ->
  exists N : Z,
    near N a (2 ^ (fexp prec emax (Zdigits2 mx + ex) - ex) * b) /\
    0 <= N <= 2 ^ 53 /\
    (emin < fexp prec emax (Zdigits2 mx + ex) -> 2 ^ 52 <= N) /\
    key (binary_round_aux prec emax false mx ex lx) =
      N * 2 ^ (fexp prec emax (Zdigits2 mx + ex) - emin) /\
    ((exists s, binary_round_aux prec emax false mx ex lx = S754_zero s) \/
     (exists m e, binary_round_aux prec emax false mx ex lx = S754_finite false m e)).
Proof.
  intros Hl Hn Hf.
  destruct (bra_value mx ex lx a b Hl Hn Hf) as (N & Hnear & HN & Hbig & Hres).
  exists N. repeat (split; [assumption|]).
  assert (HK : emin <= fexp prec emax (Zdigits2 mx + ex)) by (rewrite fexp_eq; lia).
  destruct Hres as [[-> ->] | (m & e & -> & He & <-)].
  - split; [reflexivity | left; eauto].
  - split; [| right; eauto].
    unfold key. rewrite <- Z.mul_assoc. f_equal.
    rewrite <- pow2_split by lia. f_equal. lia.
Qed.

Lemma bra_mono (mx ex : Z) (lx : location) (a : Z)
      (mx' ex' : Z) (lx' : location) (a' : Z) (b E : Z) :
  loc_ok mx lx a b -> loc_ok mx' lx' a' b ->
  ex <= fexp prec emax (Zdigits2 mx + ex) ->
  ex' <= fexp prec emax (Zdigits2 mx' + ex') ->
  fexp prec emax (Zdigits2 mx + ex) + 1 <= emax - prec ->
  fexp prec emax (Zdigits2 mx' + ex') + 1 <= emax - prec ->
  E <= ex -> E <= ex' ->
  a * 2 ^ (ex - E) <= a' * 2 ^ (ex' - E) ->
  key (binary_round_aux prec emax false mx ex lx) <=
  key (binary_round_aux prec emax false mx' ex' lx').
Proof.
  intros Hl Hl' Hn Hn' Hf Hf' HE HE' Hle.
  destruct (bra_key mx ex lx a b Hl Hn Hf) as (N & Hnear & HN & Hbig & -> & _).
  destruct (bra_key mx' ex' lx' a' b Hl' Hn' Hf') as (N' & Hnear' & HN' & Hbig' & -> & _).
  set (K := fexp prec emax (Zdigits2 mx + ex)) in *.
  set (K' := fexp prec emax (Zdigits2 mx' + ex')) in *.
  assert (HK : emin <= K) by (unfold K; rewrite fexp_eq; lia).
  assert (HK' : emin <= K') by (unfold K'; rewrite fexp_eq; lia).
  assert (HKd : Zdigits2 mx + ex - prec <= K) by (unfold K; rewrite fexp_eq; lia).
  assert (HKd' : Zdigits2 mx' + ex' - prec <= K') by (unfold K'; rewrite fexp_eq; lia).
  assert (HKe : emin < K -> K = Zdigits2 mx + ex - prec) by (unfold K; rewrite fexp_eq; lia).
  destruct Hl as (Hb & Hm & Hbr & _). destruct Hl' as (_ & Hm' & Hbr' & _).
  assert (HP : 0 < 2 ^ (ex - E)) by (apply pow2_pos; lia).
  assert (HP' : 0 < 2 ^ (ex' - E)) by (apply pow2_pos; lia).
  destruct (Z_lt_le_dec K' K) as [Hlt | Hge].
  - (* the smaller input cannot have the larger exponent *)
    exfalso.
    pose proof (HKe ltac:(lia)) as HKeq. unfold prec in *.
    assert (Hmpos : 0 < mx).
    { destruct (Z.eq_dec mx 0) as [-> | ]; [| lia].
      change (Zdigits2 0) with 0 in *. lia. }
    pose proof (Zdigits2_lower mx Hmpos) as Hlow.
    pose proof (Zdigits2_upper mx' Hm') as Hupp.
    pose proof (Zdigits2_nonneg mx') as Hd'.
    assert (Hd : 1 <= Zdigits2 mx).
    { destruct mx; cbn; lia. }
    assert (Hpow : 2 ^ Zdigits2 mx' * 2 ^ (ex' - E) <=
                   2 ^ (Zdigits2 mx - 1) * 2 ^ (ex - E)).
    { rewrite <- !pow2_split by lia. apply pow2_le; lia. }
    assert (H1 : a' < 2 ^ Zdigits2 mx' * b) by nia.
    assert (H2 : a' * 2 ^ (ex' - E) < 2 ^ Zdigits2 mx' * b * 2 ^ (ex' - E)) by nia.
    assert (H3 : 2 ^ Zdigits2 mx' * b * 2 ^ (ex' - E) <=
                 2 ^ (Zdigits2 mx - 1) * b * 2 ^ (ex - E)).
    { replace (2 ^ Zdigits2 mx' * b * 2 ^ (ex' - E))
        with (b * (2 ^ Zdigits2 mx' * 2 ^ (ex' - E))) by ring.
      replace (2 ^ (Zdigits2 mx - 1) * b * 2 ^ (ex - E))
        with (b * (2 ^ (Zdigits2 mx - 1) * 2 ^ (ex - E))) by ring.
      apply Z.mul_le_mono_nonneg_l; lia. }
    assert (H4 : 2 ^ (Zdigits2 mx - 1) * b * 2 ^ (ex - E) <= mx * b * 2 ^ (ex - E)).
    { apply Z.mul_le_mono_nonneg_r; [lia|]. apply Z.mul_le_mono_nonneg_r; lia. }
    assert (H5 : mx * b * 2 ^ (ex - E) <= a * 2 ^ (ex - E)).
    { apply Z.mul_le_mono_nonneg_r; lia. }
    lia.
  - destruct (Z.eq_dec K K') as [Heq | Hne].
    + (* same exponent: compare the nearest integers *)
      rewrite <- Heq in *.
      assert (HNN : N <= N').
      { apply (near_mono N N' (a * 2 ^ (ex - E)) (a' * 2 ^ (ex' - E))
                         (b * 2 ^ (K - E))).
        - pose proof (pow2_pos (K - E)). nia.
        - apply (near_scale N a _ (2 ^ (ex - E)) HP) in Hnear.
          replace (b * 2 ^ (K - E)) with (2 ^ (K - ex) * b * 2 ^ (ex - E)); [exact Hnear|].
          replace (K - E) with ((K - ex) + (ex - E)) by lia.
          rewrite pow2_split by lia. ring.
        - apply (near_scale N' a' _ (2 ^ (ex' - E)) HP') in Hnear'.
          replace (b * 2 ^ (K - E)) with (2 ^ (K - ex') * b * 2 ^ (ex' - E)); [exact Hnear'|].
          replace (K - E) with ((K - ex') + (ex' - E)) by lia.
          rewrite pow2_split by lia. ring.
        - exact Hle. }
      apply Z.mul_le_mono_nonneg_r; [|exact HNN].
      apply Z.lt_le_incl, pow2_pos. lia.
    + (* a smaller exponent bounds the result below the next binade *)
      specialize (Hbig' ltac:(lia)).
      assert (Hq : 0 < 2 ^ (K - emin)) by (apply pow2_pos; lia).
      replace (K' - emin) with ((K - emin) + 1 + (K' - K - 1)) by lia.
      rewrite !pow2_split by lia. change (2 ^ 1) with 2.
      assert (1 <= 2 ^ (K' - K - 1)) by (pose proof (pow2_pos (K' - K - 1)); lia).
      change (2 ^ 53) with (2 ^ 52 * 2) in HN.
      assert (N * 2 ^ (K - emin) <= 2 ^ 52 * 2 * 2 ^ (K - emin)) by nia.
      assert (2 ^ 52 * (2 ^ (K - emin) * 2) <= N' * (2 ^ (K - emin) * 2)) by nia.
      nia.
Qed.

(** ** Division by the maximum *)

Lemma pow2_le_inv (a b : Z) : 0 <= b -> 2 ^ a <= 2 ^ b -> a <= b.
Proof. intros Hb H. apply (Z.pow_le_mono_r_iff 2); lia. Qed.

Lemma pow2_lt_inv (a b : Z) : 0 <= b -> 2 ^ a < 2 ^ b -> a < b.
Proof. intros Hb H. apply (Z.pow_lt_mono_r_iff 2); lia. Qed.

Lemma new_location_ok (b r q : Z) :
  0 < b -> 0 <= q -> 0 <= r < b ->
  loc_ok q (new_location b r) (q * b + r) b.
Proof.
  intros Hb Hq Hr. unfold loc_ok.
  split; [assumption|]. split; [assumption|]. split; [lia|].
  unfold new_location, new_location_even, new_location_odd.
  destruct (Z.even b) eqn:Hev.
  - destruct (Z.eqb_spec r 0) as [-> | Hne]; [lia|].
    destruct (Z.compare_spec (2 * r) b); lia.
  - assert (Hodd : Z.odd b = true) by (rewrite <- Z.negb_even, Hev; reflexivity).
    apply Z.odd_spec in Hodd. destruct Hodd as [k Hk].
    destruct (Z.eqb_spec r 0) as [-> | Hne]; [lia|].
    destruct (Z.compare_spec (2 * r + 1) b); lia.
Qed.

Lemma div_core_ok (m1 m2 : positive) (e1 e2 : Z) :
  Z.pos (digits2_pos m1) <= 53 ->
  exists q e' l,
    SFdiv_core_binary prec emax (Z.pos m1) e1 (Z.pos m2) e2 = (q, e', l) /\
    e' = Z.min (fexp prec emax (Z.pos (digits2_pos m1) + e1 - (Z.pos (digits2_pos m2) + e2)))
               (e1 - e2) /\
    loc_ok q l (Z.pos m1 * 2 ^ (e1 - e2 - e')) (Z.pos m2) /\
    e' <= fexp prec emax (Zdigits2 q + e').
Proof.
  intros Hd1. unfold SFdiv_core_binary. cbn [Zdigits2].
  set (D := Z.pos (digits2_pos m1) + e1 - (Z.pos (digits2_pos m2) + e2)).
  set (e' := Z.min (fexp prec emax D) (e1 - e2)).
  set (s := e1 - e2 - e').
  assert (Hs : 0 <= s) by (unfold s, e'; lia).
  set (m' := match s with Z.pos _ => Z.shiftl (Z.pos m1) s | 0 => Z.pos m1 | Z.neg _ => 0 end).
  assert (Hm' : m' = Z.pos m1 * 2 ^ s).
  { unfold m'. destruct s as [|p|p] eqn:Es.
    - cbn. lia.
    - apply Z.shiftl_mul_pow2. lia.
    - lia. }
  pose proof (Z_div_mod m' (Z.pos m2) ltac:(lia)) as Hdiv.
  destruct (Z.div_eucl m' (Z.pos m2)) as [q r].
  destruct Hdiv as [Hqr Hr].
  assert (Hps : 0 < 2 ^ s) by (apply pow2_pos; lia).
  assert (Hq : 0 <= q) by nia.
  exists q, e', (new_location (Z.pos m2) r).
  split; [reflexivity|]. split; [reflexivity|]. split.
  - fold s. rewrite <- Hm', Hqr. replace (Z.pos m2 * q + r) with (q * Z.pos m2 + r) by ring.
    apply new_location_ok; lia.
  - rewrite fexp_eq. unfold e' at 1. rewrite fexp_eq.
    pose proof (digits_pos_bounds m1) as [Hlo1 Hup1].
    pose proof (digits_pos_bounds m2) as [Hlo2 Hup2].
    assert (Hd2 : 1 <= Z.pos (digits2_pos m2)) by lia.
    destruct (Z_le_gt_dec (Z.min (Z.max (D - prec) emin) (e1 - e2)) emin) as [|Hgt]; [lia|].
    (* the quotient is computed with a full significand *)
    assert (He' : e' = D - prec).
    { unfold e'. rewrite fexp_eq. unfold D, prec in *. lia. }
    assert (Hsv : s = prec - Z.pos (digits2_pos m1) + Z.pos (digits2_pos m2)).
    { unfold s. rewrite He'. unfold D. lia. }
    assert (Hbig : 2 ^ 52 <= q).
    { assert (Ha : 2 ^ (52 + Z.pos (digits2_pos m2)) <= m').
      { rewrite Hm'.
        replace (52 + Z.pos (digits2_pos m2)) with ((Z.pos (digits2_pos m1) - 1) + s)
          by (rewrite Hsv; unfold prec; lia).
        rewrite pow2_split by lia. nia. }
      rewrite pow2_split in Ha by lia.
      assert (Hp52 : 0 < 2 ^ 52) by (apply pow2_pos; lia).
      nia. }
    assert (Hdq : 53 <= Zdigits2 q).
    { pose proof (Zdigits2_upper q Hq) as Hup.
      pose proof (Zdigits2_nonneg q Hq) as Hnn.
      assert (52 < Zdigits2 q) by (apply pow2_lt_inv; lia). lia. }
    fold e'. unfold prec in *. lia.
Qed.

Lemma key_le_exp (m1 m2 : positive) (e1 e2 : Z) :
  valid_binary (S754_finite false m1 e1) = true ->
  valid_binary (S754_finite false m2 e2) = true ->
  Z.pos m1 * 2 ^ (e1 - emin) <= Z.pos m2 * 2 ^ (e2 - emin) ->
  e1 <= e2.
Proof.
  intros H1 H2 Hle. destruct (Z_le_gt_dec e1 e2) as [|Hgt]; [assumption|].
  pose proof (key_exp_lt m2 m1 e2 e1 H2 H1 ltac:(lia)). lia.
Qed.

Lemma pow2_merge (m a b c : Z) :
  0 <= a -> 0 <= b -> c = a + b -> m * 2 ^ a * 2 ^ b = m * 2 ^ c.
Proof. intros Ha Hb ->. rewrite pow2_split by lia. ring. Qed.

Lemma div_bracket (mu mM : positive) (eu eM : Z) :
  valid_binary (S754_finite false mu eu) = true ->
  valid_binary (S754_finite false mM eM) = true ->
  Z.pos mu * 2 ^ (eu - emin) <= Z.pos mM * 2 ^ (eM - emin) ->
  exists q e' l,
    SFdiv_core_binary prec emax (Z.pos mu) eu (Z.pos mM) eM = (q, e', l) /\
    loc_ok q l (Z.pos mu * 2 ^ (eu - eM - e')) (Z.pos mM) /\
    e' <= fexp prec emax (Zdigits2 q + e') /\
    fexp prec emax (Zdigits2 q + e') + 1 <= emax - prec /\
    -5000 <= e' <= eu - eM.
Proof.
  intros Hu HM Hle.
  destruct (valid_finite mu eu Hu) as (Heu & Hdu & _).
  destruct (valid_finite mM eM HM) as (HeM & HdM & _).
  pose proof (key_le_exp mu mM eu eM Hu HM Hle) as Hexp.
  destruct (div_core_ok mu mM eu eM Hdu) as (q & e' & l & Hcore & He' & Hloc & Hn).
  exists q, e', l. split; [assumption|]. split; [assumption|]. split; [assumption|].
  assert (Hr : -5000 <= e' <= eu - eM).
  { rewrite He', fexp_eq. unfold emin, emax, prec in *. lia. }
  split; [| assumption].
  destruct Hloc as (_ & Hq & Hbr & _).
  assert (Hqle : q <= 2 ^ (- e')).
  { assert (HpM : 0 < 2 ^ (eM - emin)) by (apply pow2_pos; lia).
    assert (Hpe : 0 < 2 ^ (- e')) by (apply pow2_pos; lia).
    assert (Ha : Z.pos mu * 2 ^ (eu - eM - e') * 2 ^ (eM - emin) =
                 Z.pos mu * 2 ^ (eu - emin) * 2 ^ (- e')).
    { rewrite !(pow2_merge) with (c := eu - emin - e') by lia. reflexivity. }
    assert (Hb : Z.pos mu * 2 ^ (eu - eM - e') * 2 ^ (eM - emin) <=
                 Z.pos mM * 2 ^ (- e') * 2 ^ (eM - emin)).
    { rewrite Ha.
      replace (Z.pos mM * 2 ^ (- e') * 2 ^ (eM - emin))
        with (Z.pos mM * 2 ^ (eM - emin) * 2 ^ (- e')) by ring.
      apply Z.mul_le_mono_nonneg_r; lia. }
    assert (Hc : Z.pos mu * 2 ^ (eu - eM - e') <= Z.pos mM * 2 ^ (- e')).
    { apply (Z.mul_le_mono_pos_r _ _ (2 ^ (eM - emin))); assumption. }
    assert (Hd : q * Z.pos mM <= 2 ^ (- e') * Z.pos mM) by lia.
    apply (Z.mul_le_mono_pos_r _ _ (Z.pos mM)); [lia | assumption]. }
  assert (Hdq : Zdigits2 q <= - e' + 1).
  { destruct (Z.eq_dec q 0) as [-> | Hne]; [cbn; lia|].
    pose proof (Zdigits2_lower q ltac:(lia)) as Hlow.
    assert (Zdigits2 q - 1 <= - e') by (apply pow2_le_inv; lia). lia. }
  rewrite fexp_eq. unfold emin, emax, prec in *. lia.
Qed.

Lemma SFdiv_finite_eq (mu mM : positive) (eu eM : Z) (q e' : Z) (l : location) :
  SFdiv_core_binary prec emax (Z.pos mu) eu (Z.pos mM) eM = (q, e', l) ->
  SFdiv prec emax (S754_finite false mu eu) (S754_finite false mM eM) =
  binary_round_aux prec emax false q e' l.
Proof. intros H. unfold SFdiv. rewrite H. reflexivity. Qed.

Lemma SFdiv_mono (mu mv mM : positive) (eu ev eM : Z) :
  valid_binary (S754_finite false mu eu) = true ->
  valid_binary (S754_finite false mv ev) = true ->
  valid_binary (S754_finite false mM eM) = true ->
  Z.pos mu * 2 ^ (eu - emin) <= Z.pos mv * 2 ^ (ev - emin) ->
  Z.pos mv * 2 ^ (ev - emin) <= Z.pos mM * 2 ^ (eM - emin) ->
  key (SFdiv prec emax (S754_finite false mu eu) (S754_finite false mM eM)) <=
  key (SFdiv prec emax (S754_finite false mv ev) (S754_finite false mM eM)).
Proof.
  intros Hu Hv HM Huv HvM.
  destruct (valid_finite mu eu Hu) as (Heu & _ & _).
  destruct (valid_finite mv ev Hv) as (Hev & _ & _).
  destruct (valid_finite mM eM HM) as (HeM & _ & _).
  destruct (div_bracket mu mM eu eM Hu HM ltac:(lia))
    as (q & e1 & l & Hc & Hloc & Hn & Hf & Hr).
  destruct (div_bracket mv mM ev eM Hv HM HvM)
    as (q' & e2 & l' & Hc' & Hloc' & Hn' & Hf' & Hr').
  rewrite (SFdiv_finite_eq _ _ _ _ _ _ _ Hc), (SFdiv_finite_eq _ _ _ _ _ _ _ Hc').
  apply (bra_mono q e1 l (Z.pos mu * 2 ^ (eu - eM - e1))
                  q' e2 l' (Z.pos mv * 2 ^ (ev - eM - e2)) (Z.pos mM) (-5000));
    try assumption; try lia.
  assert (Hcst : 0 <= emin - eM + 5000) by (unfold emin, emax, prec in *; lia).
  rewrite pow2_merge with (c := eu - eM + 5000) by lia.
  rewrite pow2_merge with (c := ev - eM + 5000) by lia.
  rewrite <- (pow2_merge (Z.pos mu) (eu - emin) (emin - eM + 5000)) by lia.
  rewrite <- (pow2_merge (Z.pos mv) (ev - emin) (emin - eM + 5000)) by lia.
  apply Z.mul_le_mono_nonneg_r; [|assumption].
  apply Z.lt_le_incl, pow2_pos; lia.
Qed.

Lemma SFdiv_form (mu mM : positive) (eu eM : Z) :
  valid_binary (S754_finite false mu eu) = true ->
  valid_binary (S754_finite false mM eM) = true ->
  Z.pos mu * 2 ^ (eu - emin) <= Z.pos mM * 2 ^ (eM - emin) ->
  (exists s, SFdiv prec emax (S754_finite false mu eu) (S754_finite false mM eM) =
             S754_zero s) \/
  (exists m e, SFdiv prec emax (S754_finite false mu eu) (S754_finite false mM eM) =
               S754_finite false m e).
Proof.
  intros Hu HM Hle.
  destruct (div_bracket mu mM eu eM Hu HM Hle) as (q & e1 & l & Hc & Hloc & Hn & Hf & _).
  rewrite (SFdiv_finite_eq _ _ _ _ _ _ _ Hc).
  destruct (bra_key q e1 l _ _ Hloc Hn Hf) as (_ & _ & _ & _ & _ & Hres).
  exact Hres.
Qed.

(** ** Multiplication by 255 *)

Lemma key_nonneg (x : spec_float) : 0 <= key x.
Proof.
  destruct x as [s|s| |s m e]; unfold key; lia.
Qed.

Lemma key_SFone : key SFone = 2 ^ 1074.
Proof. reflexivity. Qed.

Lemma mul255_bracket (ma : positive) (ea : Z) :
  valid_binary (S754_finite false ma ea) = true ->
  Z.pos ma * 2 ^ (ea - emin) <= 2 ^ 1074 ->
  ea + -45 <= fexp prec emax (Zdigits2 (Z.pos (ma * m255)) + (ea + -45)) /\
  fexp prec emax (Zdigits2 (Z.pos (ma * m255)) + (ea + -45)) + 1 <= emax - prec.
Proof.
  intros Hv Hle.
  destruct (valid_finite ma ea Hv) as (Hea & Hda & _).
  pose proof (digits_pos_bounds ma) as [Hlo Hup].
  assert (Hm : 2 ^ 52 <= Z.pos m255 < 2 ^ 53) by (unfold m255; split; lia).
  cbn [Zdigits2].
  pose proof (digits_pos_bounds (ma * m255)) as [HloP HupP].
  rewrite Pos2Z.inj_mul in HloP, HupP.
  set (D := Z.pos (digits2_pos (ma * m255))) in *.
  set (da := Z.pos (digits2_pos ma)) in *.
  assert (Hda1 : 1 <= da) by (unfold da; lia).
  assert (HD1 : 1 <= D) by (unfold D; lia).
  assert (HDlo : da + 51 < D).
  { apply pow2_lt_inv; [lia|].
    assert (2 ^ (da + 51) <= Z.pos ma * Z.pos m255).
    { replace (da + 51) with ((da - 1) + 52) by lia.
      rewrite pow2_split by lia.
      pose proof (pow2_pos (da - 1) ltac:(lia)). nia. }
    lia. }
  assert (HDup : D - 1 < da + 53).
  { apply pow2_lt_inv; [lia|].
    assert (Z.pos ma * Z.pos m255 < 2 ^ (da + 53)).
    { rewrite pow2_split by lia. nia. }
    lia. }
  assert (Hmag : da + ea <= 1).
  { assert (H1 : 2 ^ (da - 1) * 2 ^ (ea - emin) <= 2 ^ 1074).
    { pose proof (pow2_pos (ea - emin) ltac:(lia)). nia. }
    rewrite <- pow2_split in H1 by lia.
    apply pow2_le_inv in H1; [|lia]. unfold emin, emax, prec in *. lia. }
  rewrite fexp_eq. unfold emin, emax, prec in *. lia.
Qed.

Lemma SFmul255_mono (ma mb : positive) (ea eb : Z) :
  valid_binary (S754_finite false ma ea) = true ->
  valid_binary (S754_finite false mb eb) = true ->
  Z.pos ma * 2 ^ (ea - emin) <= Z.pos mb * 2 ^ (eb - emin) ->
  Z.pos mb * 2 ^ (eb - emin) <= 2 ^ 1074 ->
  key (SFmul prec emax (S754_finite false ma ea) SF255) <=
  key (SFmul prec emax (S754_finite false mb eb) SF255).
Proof.
  intros Ha Hb Hab Hb1.
  destruct (valid_finite ma ea Ha) as (Hea & _ & _).
  destruct (valid_finite mb eb Hb) as (Heb & _ & _).
  destruct (mul255_bracket ma ea Ha ltac:(lia)) as [Hn Hf].
  destruct (mul255_bracket mb eb Hb Hb1) as [Hn' Hf'].
  unfold SFmul, SF255. cbn [xorb].
  assert (Hr : -2000 <= ea /\ -2000 <= eb) by (unfold emin, emax, prec in *; lia).
  apply (bra_mono _ _ _ (Z.pos (ma * m255)) _ _ _ (Z.pos (mb * m255)) 1 (-5000));
    try assumption; try lia.
  - unfold loc_ok. lia.
  - unfold loc_ok. lia.
  - rewrite !Pos2Z.inj_mul.
    replace (Z.pos ma * Z.pos m255 * 2 ^ (ea + -45 - -5000))
      with (Z.pos m255 * (Z.pos ma * 2 ^ (ea - emin) * 2 ^ 3881)).
    2:{ rewrite pow2_merge with (c := ea + -45 - -5000)
          by (unfold emin, emax, prec in *; lia). ring. }
    replace (Z.pos mb * Z.pos m255 * 2 ^ (eb + -45 - -5000))
      with (Z.pos m255 * (Z.pos mb * 2 ^ (eb - emin) * 2 ^ 3881)).
    2:{ rewrite pow2_merge with (c := eb + -45 - -5000)
          by (unfold emin, emax, prec in *; lia). ring. }
    apply Z.mul_le_mono_nonneg_l; [lia|].
    apply Z.mul_le_mono_nonneg_r; [|assumption].
    apply Z.lt_le_incl, pow2_pos; lia.
Qed.

Lemma SFmul255_form (ma : positive) (ea : Z) :
  valid_binary (S754_finite false ma ea) = true ->
  Z.pos ma * 2 ^ (ea - emin) <= 2 ^ 1074 ->
  fin_nonneg (SFmul prec emax (S754_finite false ma ea) SF255).
Proof.
  intros Ha Hle.
  destruct (mul255_bracket ma ea Ha Hle) as [Hn Hf].
  unfold SFmul, SF255. cbn [xorb].
  assert (Hl : loc_ok (Z.pos (ma * m255)) loc_Exact (Z.pos (ma * m255)) 1)
    by (unfold loc_ok; lia).
  destruct (bra_key _ _ _ _ _ Hl Hn Hf) as (_ & _ & _ & _ & _ & [[s ->] | (m & e & ->)]);
    exact I.
Qed.


(** ** From the binary64 operations to the keys *)

Lemma Prim2SF_255 : Prim2SF 255 = SF255.
Proof. vm_compute. reflexivity. Qed.

Lemma Prim2SF_one : Prim2SF 1 = SFone.
Proof. vm_compute. reflexivity. Qed.

Lemma key_SF255 : key SF255 = 255 * 2 ^ 1074.
Proof. vm_compute. reflexivity. Qed.

Lemma SFmul_one_255 : SFmul prec emax SFone SF255 = SF255.
Proof. vm_compute. reflexivity. Qed.

(** Truncation divides the key by [2^1074]. *)
Lemma trunc_float_key (x : float) :
  fin_nonneg (Prim2SF x) ->
  trunc_float x = Some (key (Prim2SF x) / 2 ^ 1074).
Proof.
  intros Hx. pose proof (Prim2SF_valid x) as Hv. unfold trunc_float.
  destruct (Prim2SF x) as [s|s| |[|] m e]; try contradiction.
  - unfold key. now rewrite Z.div_0_l by lia.
  - destruct (valid_finite m e Hv) as (He & _ & _). unfold key. f_equal.
    assert (Hp : 0 < 2 ^ 1074) by (apply pow2_pos; lia).
    destruct e as [|p|p].
    + change (0 - emin) with 1074. rewrite Z.div_mul by lia. lia.
    + replace (Z.pos p - emin) with (Z.pos p + 1074) by (unfold emin, emax, prec; lia).
      rewrite pow2_split, Z.mul_assoc, Z.div_mul by lia. reflexivity.
    + assert (Hq : 0 < 2 ^ (Z.neg p - emin)) by (apply pow2_pos; lia).
      replace (2 ^ 1074) with (2 ^ Z.pos p * 2 ^ (Z.neg p - emin)).
      * rewrite Z.div_mul_cancel_r by lia. reflexivity.
      * rewrite <- pow2_split by lia. f_equal. unfold emin, emax, prec. lia.
Qed.

Lemma np_uint8_some (x : float) (i : Z) :
  fin_nonneg (Prim2SF x) ->
  np_uint8 x = Some i -> i = key (Prim2SF x) / 2 ^ 1074.
Proof.
  intros Hx. unfold np_uint8. rewrite (trunc_float_key x Hx).
  destruct ((0 <=? _) && (_ <=? 255)); congruence.
Qed.

Lemma np_uint8_key (x : float) :
  fin_nonneg (Prim2SF x) ->
  key (Prim2SF x) <= key SF255 ->
  np_uint8 x = Some (key (Prim2SF x) / 2 ^ 1074) /\
  0 <= key (Prim2SF x) / 2 ^ 1074 <= 255.
Proof.
  intros Hx Hle. unfold np_uint8. rewrite (trunc_float_key x Hx).
  assert (Hp : 0 < 2 ^ 1074) by (apply pow2_pos; lia).
  assert (Hr : 0 <= key (Prim2SF x) / 2 ^ 1074 <= 255).
  { split.
    - apply Z.div_pos; [apply key_nonneg | assumption].
    - rewrite key_SF255 in Hle.
      apply (Z.div_le_mono _ _ (2 ^ 1074)) in Hle; [|assumption].
      rewrite Z.div_mul in Hle by lia. exact Hle. }
  split; [|exact Hr].
  destruct (Z.leb_spec 0 (key (Prim2SF x) / 2 ^ 1074)); [|lia].
  destruct (Z.leb_spec (key (Prim2SF x) / 2 ^ 1074) 255); [|lia].
  reflexivity.
Qed.

Lemma finite_key_pos (m : positive) (e : Z) :
  valid_binary (S754_finite false m e) = true -> 0 < key (S754_finite false m e).
Proof. intros Hv. unfold key. now destruct (finite_key_bounds m e Hv) as [[H _] _]. Qed.

(** Division by a common positive number keeps the order of non-negative
    numbers that do not exceed it. *)
Lemma SFdiv_le (x y : spec_float) (mM : positive) (eM : Z) :
  valid_binary x = true -> valid_binary y = true ->
  valid_binary (S754_finite false mM eM) = true ->
  fin_nonneg x -> fin_nonneg y ->
  key x <= key y -> key y <= key (S754_finite false mM eM) ->
  fin_nonneg (SFdiv prec emax x (S754_finite false mM eM)) /\
  key (SFdiv prec emax x (S754_finite false mM eM)) <=
  key (SFdiv prec emax y (S754_finite false mM eM)).
Proof.
  intros Hx Hy HM Nx Ny Hxy HyM.
  destruct x as [s|s| |[|] m e]; try contradiction.
  - split; [exact I|]. apply key_nonneg.
  - pose proof (finite_key_pos m e Hx) as Hpos.
    destruct y as [s'|s'| |[|] m' e']; try contradiction.
    + unfold key at 2 in Hxy. lia.
    + unfold key in Hxy, HyM. split.
      * destruct (SFdiv_form m mM e eM Hx HM ltac:(lia)) as [[s ->] | (q & eq & ->)];
          exact I.
      * now apply SFdiv_mono.
Qed.

Lemma SFmul255_le (x y : spec_float) :
  valid_binary x = true -> valid_binary y = true ->
  fin_nonneg x -> fin_nonneg y ->
  key x <= key y -> key y <= 2 ^ 1074 ->
  fin_nonneg (SFmul prec emax x SF255) /\
  key (SFmul prec emax x SF255) <= key (SFmul prec emax y SF255).
Proof.
  intros Hx Hy Nx Ny Hxy Hy1.
  destruct x as [s|s| |[|] m e]; try contradiction.
  - split; [exact I|]. apply key_nonneg.
  - pose proof (finite_key_pos m e Hx) as Hpos.
    destruct y as [s'|s'| |[|] m' e']; try contradiction.
    + unfold key at 2 in Hxy. lia.
    + unfold key in Hxy, Hy1. split.
      * apply SFmul255_form; [assumption | lia].
      * now apply SFmul255_mono.
Qed.

(** The intensity [v / top * 255] as a function of [v], for a positive
    finite [top] that bounds [v]. *)
Lemma intensity_key (u v top : float) (mM : positive) (eM : Z) :
  Prim2SF top = S754_finite false mM eM ->
  fin_nonneg (Prim2SF u) -> fin_nonneg (Prim2SF v) ->
  key (Prim2SF u) <= key (Prim2SF v) ->
  key (Prim2SF v) <= key (Prim2SF top) ->
  fin_nonneg (Prim2SF (u / top * 255)) /\
  key (Prim2SF (u / top * 255)) <= key (Prim2SF (v / top * 255)) /\
  key (Prim2SF (v / top * 255)) <= key SF255.
Proof.
  intros HM Nu Nv Huv HvM.
  pose proof (Prim2SF_valid u) as Vu. pose proof (Prim2SF_valid v) as Vv.
  pose proof (Prim2SF_valid top) as VM.
  pose proof (Prim2SF_valid (u / top)) as Vqu.
  pose proof (Prim2SF_valid (v / top)) as Vqv.
  pose proof (Prim2SF_valid (top / top)) as Vq1.
  assert (NM : fin_nonneg (Prim2SF top)) by (rewrite HM; exact I).
  assert (Hq1 : Prim2SF (top / top) = SFone).
  { rewrite (div_self_finite top false mM eM HM). exact Prim2SF_one. }
  rewrite !mul_spec, Prim2SF_255. unfold SF64mul.
  rewrite div_spec in Vqu, Vqv, Vq1, Hq1 |- *. rewrite div_spec.
  unfold SF64div in *. rewrite HM in *.
  destruct (SFdiv_le _ _ mM eM Vu Vv VM Nu Nv Huv HvM) as [Nqu Hquv].
  destruct (SFdiv_le _ _ mM eM Vv VM VM Nv NM HvM (Z.le_refl _)) as [Nqv Hqv1].
  rewrite Hq1 in Hqv1. rewrite key_SFone in Hqv1.
  destruct (SFmul255_le _ _ Vqu Vqv Nqu Nqv Hquv Hqv1) as [Npu Hpuv].
  assert (N1 : fin_nonneg SFone) by exact I.
  assert (V1 : valid_binary SFone = true) by reflexivity.
  destruct (SFmul255_le _ SFone Vqv V1 Nqv N1 ltac:(rewrite key_SFone; exact Hqv1)
                        ltac:(rewrite key_SFone; lia)) as [_ Hpv1].
  rewrite SFmul_one_255 in Hpv1.
  repeat split; assumption.
Qed.

Lemma intensity_mono (u v top : float) (mM : positive) (eM iu iv : Z) :
  Prim2SF top = S754_finite false mM eM ->
  fin_nonneg (Prim2SF u) -> fin_nonneg (Prim2SF v) ->
  key (Prim2SF u) <= key (Prim2SF v) ->
  key (Prim2SF v) <= key (Prim2SF top) ->
  np_uint8 (u / top * 255) = Some iu ->
  np_uint8 (v / top * 255) = Some iv ->
  iu <= iv.
Proof.
  intros HM Nu Nv Huv HvM Hu Hv.
  destruct (intensity_key u v top mM eM HM Nu Nv Huv HvM) as (Npu & Hle & _).
  destruct (intensity_key v v top mM eM HM Nv Nv (Z.le_refl _) HvM) as (Npv & _ & _).
  apply (np_uint8_some _ _ Npu) in Hu. apply (np_uint8_some _ _ Npv) in Hv.
  subst iu iv. apply Z.div_le_mono; [apply pow2_pos; lia | exact Hle].
Qed.

Lemma intensity_defined (u top : float) (mM : positive) (eM : Z) :
  Prim2SF top = S754_finite false mM eM ->
  fin_nonneg (Prim2SF u) ->
  key (Prim2SF u) <= key (Prim2SF top) ->
  exists iu : Z, np_uint8 (u / top * 255) = Some iu /\ 0 <= iu <= 255.
Proof.
  intros HM Nu HuM.
  destruct (intensity_key u u top mM eM HM Nu Nu (Z.le_refl _) HuM) as (Npu & _ & Hle).
  destruct (np_uint8_key _ Npu Hle) as [Heq Hr].
  eexists; split; [exact Heq | exact Hr].
Qed.

(** ** The largest value of the array *)

Lemma is_nan_fin_nonneg (x : float) :
  fin_nonneg (Prim2SF x) -> is_nan x = false.
Proof.
  intros Hx. unfold is_nan. rewrite eqb_spec. unfold SFeqb, SFcompare.
  destruct (Prim2SF x) as [s|s| |[|] m e]; try contradiction; [reflexivity|].
  rewrite Z.compare_refl, Pos.compare_cont_refl. reflexivity.
Qed.

Lemma fmax_key (a x : float) :
  fin_nonneg (Prim2SF a) -> fin_nonneg (Prim2SF x) ->
  fin_nonneg (Prim2SF (fmax a x)) /\
  key (Prim2SF a) <= key (Prim2SF (fmax a x)) /\
  key (Prim2SF x) <= key (Prim2SF (fmax a x)).
Proof.
  intros Na Nx. unfold fmax.
  rewrite (is_nan_fin_nonneg a Na), (is_nan_fin_nonneg x Nx).
  pose proof (ltb_key _ _ (Prim2SF_valid a) (Prim2SF_valid x) Na Nx) as Hlt.
  rewrite <- ltb_spec in Hlt.
  destruct (a <? x)%float.
  - assert (key (Prim2SF a) < key (Prim2SF x)) by now apply Hlt.
    repeat split; [assumption | lia | lia].
  - assert (~ key (Prim2SF a) < key (Prim2SF x)).
    { intros H. apply Hlt in H. discriminate. }
    repeat split; [assumption | lia | lia].
Qed.

Lemma fold_fmax_key (vs : list float) (v : float) :
  fin_nonneg (Prim2SF v) ->
  (forall x, In x vs -> fin_nonneg (Prim2SF x)) ->
  fin_nonneg (Prim2SF (fold_left fmax vs v)) /\
  forall x, In x (v :: vs) ->
            key (Prim2SF x) <= key (Prim2SF (fold_left fmax vs v)).
Proof.
  revert v. induction vs as [|y vs IH]; intros v Nv Nvs; cbn [fold_left].
  - split; [assumption|]. intros x [<- | []]. lia.
  - destruct (fmax_key v y Nv (Nvs y (or_introl eq_refl))) as (Nf & Hv & Hy).
    destruct (IH (fmax v y) Nf (fun x Hx => Nvs x (or_intror Hx))) as [NM Hall].
    split; [assumption|].
    intros x [<- | [<- | Hin]].
    + specialize (Hall (fmax v y) (or_introl eq_refl)). lia.
    + specialize (Hall (fmax v y) (or_introl eq_refl)). lia.
    + apply Hall. now right.
Qed.

Lemma cell_in_concat {A : Type} (g : grid A) (i j : nat) (a : A) :
  cell g i j = Some a -> In a (concat g).
Proof.
  unfold cell. intros H.
  destruct (nth_error g i) as [row|] eqn:Hrow; [|discriminate].
  apply in_concat. exists row. split; eapply nth_error_In; eassumption.
Qed.

(** [np.max] of an array of non-negative finite numbers is one of them and
    bounds them all. *)
Lemma np_max_bound (a : grid float) (top : float) :
  (forall i j v, cell a i j = Some v -> fin_nonneg (Prim2SF v)) ->
  np_max a = Ok top ->
  fin_nonneg (Prim2SF top) /\
  forall i j v, cell a i j = Some v -> key (Prim2SF v) <= key (Prim2SF top).
Proof.
  intros Hfin Hmax. unfold np_max in Hmax.
  destruct (concat a) as [|v vs] eqn:Hc; [discriminate|].
  injection Hmax as <-.
  assert (Hall : forall x, In x (v :: vs) -> fin_nonneg (Prim2SF x)).
  { intros x Hx. rewrite <- Hc in Hx. apply in_concat_cell in Hx.
    destruct Hx as (i & j & Hx). eapply Hfin; eassumption. }
  destruct (fold_fmax_key vs v (Hall v (or_introl eq_refl))
                          (fun x Hx => Hall x (or_intror Hx))) as [NM Hle].
  split; [assumption|].
  intros i j x Hx. apply Hle. rewrite <- Hc. eapply cell_in_concat; eassumption.
Qed.

(** With a zero maximum every intensity is a NaN. *)
Lemma intensity_zero_top (u top : float) (s : bool) :
  Prim2SF top = S754_zero s ->
  fin_nonneg (Prim2SF u) ->
  key (Prim2SF u) <= key (Prim2SF top) ->
  np_uint8 (u / top * 255) = None.
Proof.
  intros HM Nu Hle. pose proof (Prim2SF_valid u) as Vu.
  unfold np_uint8, trunc_float. rewrite mul_spec, div_spec, HM.
  rewrite HM in Hle. unfold key at 2 in Hle.
  destruct (Prim2SF u) as [s'|s'| |[|] m e]; try contradiction.
  - reflexivity.
  - pose proof (finite_key_pos m e Vu). lia.
Qed.

(** C9.  Post-processing is monotonic.  The buffer holds [int32] counts
    whose successor is an [int32] value as well, so that [count + 1] is the
    sum numpy computes.  [np_log] is numpy's logarithm, of which two
    properties are used, both on the values [count + 1] of the buffer only:
    it returns zero or a positive finite number, and it keeps the order of
    the counts.  Then, for two cells [a] and [b] of the buffer with
    [count_b <= count_a]: whenever the two 8-bit intensities are defined,
    the one of [b] is at most the one of [a]; and they are defined, within
    0..255, as soon as the largest logarithm of the buffer is positive.
    (With a largest logarithm of zero, that is in a buffer of zeros, every
    intensity is the cast of a NaN.) *)
Theorem post_processing_is_monotonic
        (np_log : float -> float) (result : grid Z) (img : grid (option Z))
        (ia ja ib jb : nat) (count_a count_b : Z) :
  all_cells (fun n => fits_int32 n /\ fits_int32 (n + 1)) result ->
  (forall i j n, cell result i j = Some n ->
                 fin_nonneg (Prim2SF (np_log (float_of_Z (n + 1))))) ->
  (forall i j n i' j' n',
      cell result i j = Some n -> cell result i' j' = Some n' -> n <= n' ->
      (np_log (float_of_Z (n + 1)) <=? np_log (float_of_Z (n' + 1)))%float = true) ->
  post_process np_log result = Ok img ->
  cell result ia ja = Some count_a ->
  cell result ib jb = Some count_b ->
  count_b <= count_a ->
  (forall out_a out_b : Z,
      cell img ia ja = Some (Some out_a) ->
      cell img ib jb = Some (Some out_b) ->
      out_b <= out_a) /\
  (forall top : float,
      np_max (log_scale np_log result) = Ok top ->
      (0 <? top)%float = true ->
      exists out_a out_b : Z,
        cell img ia ja = Some (Some out_a) /\
        cell img ib jb = Some (Some out_b) /\
        0 <= out_b <= out_a /\ out_a <= 255).
Proof.
  intros _ Hfin Hmono Himg Ha Hb Hle.
  unfold post_process, normalize in Himg.
  destruct (np_max (log_scale np_log result)) as [top | e al] eqn:Hmax;
    [| discriminate].
  cbn [bind] in Himg. injection Himg as <-.
  unfold log_scale. rewrite !cell_map2, Ha, Hb. cbn [option_map].
  set (u := np_log (float_of_Z (count_a + 1))).
  set (w := np_log (float_of_Z (count_b + 1))).
  assert (Hlog : forall i j v, cell (log_scale np_log result) i j = Some v ->
                               fin_nonneg (Prim2SF v)).
  { intros i j v Hv. unfold log_scale in Hv. rewrite cell_map2 in Hv.
    destruct (cell result i j) as [n|] eqn:Hn; [|discriminate].
    injection Hv as <-. eapply Hfin; eassumption. }
  destruct (np_max_bound _ _ Hlog Hmax) as [Ntop Hbound].
  assert (Nu : fin_nonneg (Prim2SF u)) by (eapply Hfin; eassumption).
  assert (Nw : fin_nonneg (Prim2SF w)) by (eapply Hfin; eassumption).
  assert (Hu : key (Prim2SF u) <= key (Prim2SF top)).
  { apply (Hbound ia ja). unfold log_scale. now rewrite cell_map2, Ha. }
  assert (Hwu : key (Prim2SF w) <= key (Prim2SF u)).
  { apply (leb_key _ _ (Prim2SF_valid w) (Prim2SF_valid u) Nw Nu).
    rewrite <- leb_spec. eapply Hmono; eassumption. }
  destruct (Prim2SF top) as [s|s| |[|] mM eM] eqn:Htop; try contradiction.
  - (* a zero maximum *)
    rewrite <- Htop in Hu.
    assert (Hw : key (Prim2SF w) <= key (Prim2SF top)) by lia.
    rewrite (intensity_zero_top u top s Htop Nu Hu).
    rewrite (intensity_zero_top w top s Htop Nw Hw).
    split; [intros out_a out_b [=] |].
    intros top' [= <-] Hpos. rewrite ltb_spec, Htop in Hpos. discriminate.
  - (* a positive maximum *)
    rewrite <- Htop in Hu.
    split.
    + intros out_a out_b [= Hoa] [= Hob].
      exact (intensity_mono w u top mM eM out_b out_a Htop Nw Nu Hwu Hu Hob Hoa).
    + intros top' _ _.
      destruct (intensity_defined u top mM eM Htop Nu Hu) as (oa & Hoa & Hra).
      destruct (intensity_defined w top mM eM Htop Nw ltac:(lia)) as (ob & Hob & Hrb).
      exists oa, ob. rewrite Hoa, Hob.
      pose proof (intensity_mono w u top mM eM ob oa Htop Nw Nu Hwu Hu Hob Hoa).
      repeat split; try reflexivity; lia.
Qed.

Lemma post_processing_is_monotonic_witness :
  exists out_a out_b : Z,
    cell [[Some 0; Some 255]; [Some 255; Some 0]] 0 1 = Some (Some out_a) /\
    cell [[Some 0; Some 255]; [Some 255; Some 0]] 0 0 = Some (Some out_b) /\
    0 <= out_b <= out_a /\ out_a <= 255.
Proof.
  refine (proj2 (post_processing_is_monotonic
                   np_log_sample [[0; 1]; [1; 0]]
                   [[Some 0; Some 255]; [Some 255; Some 0]]
                   0%nat 1%nat 0%nat 0%nat 1 0 _ _ _ _ _ _ _)
                0.6931471805599453%float _ _).
  - intros [|[|[|i]]] [|[|[|j]]] n H; cbn in H; try discriminate H;
      injection H as <-; unfold fits_int32; lia.
  - intros [|[|[|i]]] [|[|[|j]]] n H; cbn in H; try discriminate H;
      injection H as <-; exact I.
  - intros [|[|[|i]]] [|[|[|j]]] n [|[|[|i']]] [|[|[|j']]] n' H H' Hn;
      cbn in H, H'; try discriminate H; try discriminate H';
      injection H as <-; injection H' as <-;
      first [reflexivity | exfalso; lia].
  - vm_compute. reflexivity.
  - reflexivity.
  - reflexivity.
  - lia.
  - vm_compute. reflexivity.
  - reflexivity.
Defined.
